(** * The dbt manifest: edges, lookups, registration and patches

    A shallow embedding of [dbt/contracts/graph/manifest.py]: the module's
    [build_edges] function and the methods of its [Manifest] class, with the
    properties of the edge maps, of the documentation lookup, of the
    materialization macro lookup, of [add_nodes] and of [patch_nodes].

    Python objects that the module mutates or copies (the lists of unique
    ids) live in an explicit store and are named by their location, so
    that a copy and an alias are different things.  Python dictionaries
    whose iteration order is observable ([self.nodes], [self.docs], the
    patches) are insertion-ordered association lists; the two edge
    dictionaries, which are only read by key, are finite maps. *)

From Stdlib Require Import Ascii String.
From stdpp Require Import gmap strings list fin_maps.

(** ** Entities *)

(** Modelled from the spec: [dbt.node_types.NodeType] is not under src/;
    the spec describes the resource type as a closed enum, of which the
    module names [Model], [Macro] and [Operation]. *)
Inductive NodeType :=
| Model | Analysis | Test | Archive | Seed | Macro | Operation | Documentation.

#[global] Instance NodeType_eq_dec : EqDecision NodeType.
Proof. solve_decision. Defined.

(** A location of the store of list objects. *)
Abbreviation loc := nat.

(** A parsed or compiled node, with the attributes the module reads:
    [unique_id], [name], [resource_type] and [depends_on_nodes], the last
    one a reference to a list object.  [package_name] and [description]
    stand for the rest of the node's contents: its identity and the
    descriptive metadata a patch overwrites. *)
Record Node := mkNode {
  unique_id : string;
  name : string;
  package_name : string;
  resource_type : NodeType;
  depends_on_nodes : loc;
  description : string
}.

(** A parsed macro: a plain macro or an operation. *)
Record ParsedMacro := mkMacro {
  macro_unique_id : string;
  macro_name : string;
  macro_package_name : string;
  macro_resource_type : NodeType
}.

(** A parsed documentation block. *)
Record Doc := mkDoc {
  doc_unique_id : string;
  block_contents : string
}.

(** ** Exceptions and the monad of the methods *)

Inductive exn :=
| KeyError (key : string)
| NameError (name : string)
| ValueError (msg : string)
| NotImplementedError (msg : string)
| CompilationException (msg : string) (node : Doc)
| DuplicateResourceName (incoming existing : Node).

Inductive result (A : Type) :=
| Ok (a : A)
| Raise (e : exn).
Arguments Ok {A} a.
Arguments Raise {A} e.

(** A computation over a mutable state [S] that returns or raises; the
    state reached when an exception is raised is kept, as Python keeps the
    mutations done before a [raise]. *)
Definition M (S A : Type) : Type := S → result A * S.

#[global] Instance M_ret {S} : MRet (M S) := λ A a s, (Ok a, s).

#[global] Instance M_bind {S} : MBind (M S) := λ A B f m s,
  match m s with
  | (Ok a, s') => f a s'
  | (Raise e, s') => (Raise e, s')
  end.

Definition raise {S A} (e : exn) : M S A := λ s, (Raise e, s).
Definition get {S} : M S S := λ s, (Ok s, s).
Definition put {S} (s : S) : M S unit := λ _, (Ok (), s).

(** [for x in l: body x] *)
Fixpoint for_each {S A} (l : list A) (body : A → M S unit) : M S unit :=
  match l with
  | [] => mret ()
  | x :: rest => body x ;; for_each rest body
  end.

(** ** Insertion-ordered dictionaries *)

(** A Python [dict] with string keys whose iteration order matters: the
    entries in insertion order.  Keys are unique in a well-formed one. *)
Abbreviation dict V := (list (string * V)).

Definition dict_wf {V} (d : dict V) : Prop := NoDup d.*1.

(** [d.get(k)] *)
Fixpoint dict_get {V} (k : string) (d : dict V) : option V :=
  match d with
  | [] => None
  | (k', v) :: rest => if decide (k' = k) then Some v else dict_get k rest
  end.

(** [k in d] *)
Definition dict_contains {V} (k : string) (d : dict V) : bool :=
  bool_decide (is_Some (dict_get k d)).

(** [d[k] = v]: an existing key keeps its place, a new one goes last. *)
Fixpoint dict_set {V} (k : string) (v : V) (d : dict V) : dict V :=
  match d with
  | [] => [(k, v)]
  | (k', v') :: rest =>
      if decide (k' = k) then (k', v) :: rest else (k', v') :: dict_set k v rest
  end.

(** [d.pop(k, None)]: the value removed, and the dictionary without it. *)
Fixpoint dict_pop {V} (k : string) (d : dict V) : option V * dict V :=
  match d with
  | [] => (None, [])
  | (k', v) :: rest =>
      if decide (k' = k) then (Some v, rest)
      else let '(o, rest') := dict_pop k rest in (o, (k', v) :: rest')
  end.

(** [d.values()] and [d.keys()] *)
Definition dict_values {V} (d : dict V) : list V := d.*2.
Definition dict_keys {V} (d : dict V) : list string := d.*1.

(** ** The store of list objects *)

(** Every Python list of unique ids is a cell of the store; a new list
    takes the next free location. *)
Abbreviation heap := (list (list string)).

(** The list at a location. *)
Definition contents (h : heap) (l : loc) : list string := default [] (h !! l).

(** A new list object holding [v]: [[]], or [v[:]]. *)
Definition alloc (v : list string) : M heap loc := λ h, (Ok (length h), h ++ [v]).

(** Reading a list object. *)
Definition load (l : loc) : M heap (list string) := λ h, (Ok (contents h l), h).

(** [l.append(x)], in place. *)
Definition list_append (l : loc) (x : string) : M heap unit :=
  λ h, (Ok (), alter (λ v, v ++ [x]) l h).

(** ** build_edges *)

(** [{node.unique_id: [] for node in nodes}]: one new empty list per node. *)
Fixpoint forward_comprehension (nodes : list Node) (acc : gmap string loc)
  : M heap (gmap string loc) :=
  match nodes with
  | [] => mret acc
  | node :: rest =>
      l ← alloc [];
      forward_comprehension rest (<[unique_id node := l]> acc)
  end.

(** [forward_edges[unique_id].append(node_id)]; the subscript raises
    [KeyError] on a key that is not in the dictionary. *)
Definition append_forward (forward_edges : gmap string loc) (node_id : string)
    (unique_id : string) : M heap unit :=
  match forward_edges !! unique_id with
  | None => raise (KeyError unique_id)
  | Some l => list_append l node_id
  end.

(** The [for node in nodes] loop.  The inner loop runs over the elements
    of [node.depends_on_nodes]; the lists it appends to are the ones the
    comprehension has just made, never that list itself, so its elements
    are those read when the loop starts. *)
Fixpoint edges_loop (nodes : list Node) (forward_edges backward_edges : gmap string loc)
  : M heap (gmap string loc) :=
  match nodes with
  | [] => mret backward_edges
  | node :: rest =>
      deps ← load (depends_on_nodes node);
      copy ← alloc deps;
      let backward_edges := <[unique_id node := copy]> backward_edges in
      for_each deps (append_forward forward_edges (unique_id node)) ;;
      edges_loop rest forward_edges backward_edges
  end.

(** [build_edges(nodes)] returns [(forward_edges, backward_edges)]. *)
Definition build_edges (nodes : list Node)
  : M heap (gmap string loc * gmap string loc) :=
  forward_edges ← forward_comprehension nodes ∅;
  backward_edges ← edges_loop nodes forward_edges ∅;
  mret (forward_edges, backward_edges).

(** An edge dictionary read by value: each key with the list at its
    location. *)
Definition edge_lists (h : heap) (d : gmap string loc) : gmap string (list string) :=
  omap (λ l, h !! l) d.

(** *** The same algorithm on list values

    [build_edges] with every list object replaced by its elements: what
    the two dictionaries hold, whatever the locations. *)

Fixpoint forward_values (nodes : list (string * list string))
    (acc : gmap string (list string)) : gmap string (list string) :=
  match nodes with
  | [] => acc
  | (node_id, _) :: rest => forward_values rest (<[node_id := []]> acc)
  end.

Fixpoint append_values (forward_edges : gmap string (list string)) (node_id : string)
    (deps : list string) : result (gmap string (list string)) :=
  match deps with
  | [] => Ok forward_edges
  | unique_id :: rest =>
      match forward_edges !! unique_id with
      | None => Raise (KeyError unique_id)
      | Some v => append_values (<[unique_id := v ++ [node_id]]> forward_edges) node_id rest
      end
  end.

Fixpoint edges_values_loop (nodes : list (string * list string))
    (forward_edges backward_edges : gmap string (list string))
  : result (gmap string (list string) * gmap string (list string)) :=
  match nodes with
  | [] => Ok (forward_edges, backward_edges)
  | (node_id, deps) :: rest =>
      match append_values forward_edges node_id deps with
      | Raise e => Raise e
      | Ok forward_edges =>
          edges_values_loop rest forward_edges (<[node_id := deps]> backward_edges)
      end
  end.

Definition build_edges_values (nodes : list (string * list string))
  : result (gmap string (list string) * gmap string (list string)) :=
  edges_values_loop nodes (forward_values nodes ∅) ∅.

(** A node as [build_edges] sees it in the store [h]: its key and the
    elements of its dependency list. *)
Definition node_deps (h : heap) (node : Node) : list string :=
  contents h (depends_on_nodes node).

Definition node_value (h : heap) (node : Node) : string * list string :=
  (unique_id node, node_deps h node).

(** The dependents of key [k]: one entry per occurrence of [k] in a
    dependency list, in the order of the nodes. *)
Definition dependents (nodes : list (string * list string)) (k : string) : list string :=
  '(node_id, deps) ← nodes; (λ _, node_id) <$> filter (λ d, d = k) deps.

(** ** The manifest *)

Record Manifest := mkManifest {
  nodes : dict Node;
  macros : dict ParsedMacro;
  docs : dict Doc;
  generated_at : string
}.

(** *** serialize *)

(** [APIObject.serialize] of a node, a macro or a doc is not under src/:
    it is a parameter, a function of the object and of the lists it
    refers to. *)
Class Serializer := {
  Json : Type;
  serialize_node : heap → Node → Json;
  serialize_macro : ParsedMacro → Json;
  serialize_doc : Doc → Json
}.

Record Serialized `{Serializer} := mkSerialized {
  s_nodes : dict Json;
  s_macros : dict Json;
  s_docs : dict Json;
  parent_map : gmap string loc;
  child_map : gmap string loc;
  s_generated_at : string
}.

Definition serialize `{Serializer} (self : Manifest) : M heap Serialized :=
  '(forward_edges, backward_edges) ← build_edges (dict_values (nodes self));
  h ← get;
  mret {| s_nodes := prod_map id (serialize_node h) <$> nodes self;
          s_macros := prod_map id serialize_macro <$> macros self;
          s_docs := prod_map id serialize_doc <$> docs self;
          parent_map := backward_edges;
          child_map := forward_edges;
          s_generated_at := generated_at self |}.

(** *** find_docs_by_name *)

(** [s.split(sep)] for a one-character separator. *)
Fixpoint split (sep : ascii) (s : string) : list string :=
  match s with
  | EmptyString => [EmptyString]
  | String c rest =>
      if decide (c = sep) then EmptyString :: split sep rest
      else match split sep rest with
           | [] => [String c EmptyString]
           | part :: parts => String c part :: parts
           end
  end.

Definition doc_name_msg : string :=
  "documentation names cannot contain '.' characters".

(** Modelled from the spec: [dbt.exceptions.raise_compiler_error] is not
    under src/; the spec has the lookup fail with an error naming the
    offending doc, here the compilation error carrying the message and
    the doc it is called with. *)
Definition raise_compiler_error {A} (msg : string) (node : Doc) : result A :=
  Raise (CompilationException msg node).

Fixpoint find_docs_loop (items : dict Doc) (name : string) (package : option string)
  : result (option Doc) :=
  match items with
  | [] => Ok None
  | (unique_id, doc) :: rest =>
      let parts := split "."%char unique_id in
      if decide (length parts ≠ 2) then raise_compiler_error doc_name_msg doc
      else
        match parts with
        | [found_package; found_node] =>
            if decide (name = found_node ∧ package ∈ [None; Some found_package])
            then Ok (Some doc)
            else find_docs_loop rest name package
        | _ => Raise (ValueError "not enough values to unpack")
        end
  end.

Definition find_docs_by_name (self : Manifest) (name : string) (package : option string)
  : result (option Doc) :=
  find_docs_loop (docs self) name package.

(** *** Lookups by name *)

(** What a lookup in a subgraph returns: a node or a macro. *)
Inductive Entity :=
| ENode (node : Node)
| EMacro (macro : ParsedMacro).

(** The functions of [dbt.utils] the module calls are not under src/:
    the rule that names a materialization macro, and the search of a
    subgraph by name, package and resource types; nor is
    [NodeType.refable], the list of the referable resource types.  They
    are parameters. *)
Class Utils := {
  refable : list NodeType;
  get_materialization_macro_name :
    string → option string → bool → string;
  find_in_subgraph_by_name :
    dict Entity → string → option string → list NodeType → option Entity
}.

(** One call of [dbt.utils.find_in_subgraph_by_name], as the methods below
    record it: the name, the package and the accepted resource types. *)
Record Lookup := mkLookup {
  lookup_name : string;
  lookup_package : option string;
  lookup_types : list NodeType
}.

(** [_find_by_name]: the subgraph is chosen by name and searched by
    [dbt.utils.find_in_subgraph_by_name]; the state of these methods is
    the list of the lookups done so far. *)
Definition _find_by_name `{Utils} (self : Manifest) (name : string)
    (package : option string) (subgraph : string) (nodetype : list NodeType)
  : M (list Lookup) (option Entity) :=
  search ←
    (if decide (subgraph = "nodes") then mret (prod_map id ENode <$> nodes self)
     else if decide (subgraph = "macros") then mret (prod_map id EMacro <$> macros self)
     else raise (NotImplementedError
                   ("subgraph search for " +:+ subgraph +:+ " not implemented")));
  done ← get;
  put (done ++ [mkLookup name package nodetype]) ;;
  mret (find_in_subgraph_by_name search name package nodetype).

Definition find_operation_by_name `{Utils} (self : Manifest) (name : string)
    (package : option string) : M (list Lookup) (option Entity) :=
  _find_by_name self name package "macros" [Operation].

Definition find_macro_by_name `{Utils} (self : Manifest) (name : string)
    (package : option string) : M (list Lookup) (option Entity) :=
  _find_by_name self name package "macros" [Macro].

Definition find_refable_by_name `{Utils} (self : Manifest) (name : string)
    (package : option string) : M (list Lookup) (option Entity) :=
  _find_by_name self name package "nodes" refable.

Definition get_materialization_macro `{Utils} (self : Manifest)
    (materialization_name : string) (adapter_type : option string)
  : M (list Lookup) (option Entity) :=
  let macro_name :=
    get_materialization_macro_name materialization_name adapter_type false in
  macro ← find_macro_by_name self macro_name None;
  if decide ((adapter_type ∉ [Some "default"; None]) ∧ macro = None) then
    let macro_name :=
      get_materialization_macro_name materialization_name (Some "default") false in
    macro ← find_macro_by_name self macro_name None;
    mret macro
  else mret macro.

(** *** add_nodes *)

(** The names bound at the top level of the module, by its imports, its
    assignments and its definitions. *)
Definition module_globals : list string :=
  [ "APIObject"; "UNPARSED_NODE_CONTRACT"; "PARSED_NODE_CONTRACT";
    "PARSED_MACRO_CONTRACT"; "PARSED_DOCUMENTATION_CONTRACT"; "ParsedNode";
    "COMPILED_NODE_CONTRACT"; "CompiledNode"; "ValidationException";
    "NodeType"; "logger"; "dbt"; "COMPILE_RESULT_NODE_CONTRACT";
    "COMPILE_RESULT_NODES_CONTRACT"; "PARSED_MACROS_CONTRACT";
    "PARSED_DOCUMENTATIONS_CONTRACT"; "NODE_EDGE_MAP";
    "PARSED_MANIFEST_CONTRACT"; "CompileResultNode"; "build_edges";
    "Manifest" ].

(** The free names of the module's functions that are looked up at the
    top level when the function runs. *)
Definition referenced_globals : list string :=
  [ "build_edges"; "dbt"; "NodeType"; "logger"; "raise_duplicate_resource_name" ].

(** Reading a name that is neither local nor a builtin: [NameError] when
    the module does not bind it. *)
Definition load_global {S} (name : string) : M S unit :=
  if decide (name ∈ module_globals) then mret () else raise (NameError name).

(** [d[k]] *)
Definition subscript {S V} (d : dict V) (k : string) : M S V :=
  match dict_get k d with
  | Some v => mret v
  | None => raise (KeyError k)
  end.

(** Modelled from the spec: [raise_duplicate_resource_name] is defined
    nowhere under src/; the spec has the collision fail with a
    DuplicateResourceName error carrying the incoming and the existing
    node. *)
Definition raise_duplicate_resource_name {S} (node existing : Node) : M S unit :=
  raise (DuplicateResourceName node existing).

(** The body of the loop of [add_nodes]; the state is [self.nodes].  The
    call in the [if] first reads the function's name, then its arguments. *)
Definition add_node (item : string * Node) : M (dict Node) unit :=
  let '(unique_id, node) := item in
  self_nodes ← get;
  (if dict_contains unique_id self_nodes then
     load_global "raise_duplicate_resource_name" ;;
     existing ← subscript self_nodes unique_id;
     raise_duplicate_resource_name node existing
   else mret ()) ;;
  self_nodes ← get;
  put (dict_set unique_id node self_nodes).

Definition add_nodes (new_nodes : dict Node) : M (dict Node) unit :=
  for_each new_nodes add_node.

(** *** patch_nodes *)

(** A patch and [ParsedNode.patch] are not under src/: the patch is an
    object with a [name] and a truth value (the one [not patch] tests),
    and [node_patch node patch] is the node after [node.patch(patch)]. *)
Class Patching := {
  Patch : Type;
  patch_name : Patch → string;
  patch_truthy : Patch → bool;
  node_patch : Node → Patch → Node
}.

(** The first loop of [patch_nodes]: the nodes after it, in their places,
    and the patches left. *)
Fixpoint patch_scan `{Patching} (self_nodes : dict Node) (patches : dict Patch)
  : dict Node * dict Patch :=
  match self_nodes with
  | [] => ([], patches)
  | (unique_id, node) :: rest =>
      if decide (resource_type node ≠ Model) then
        let '(rest, patches) := patch_scan rest patches in
        ((unique_id, node) :: rest, patches)
      else
        let '(patch, patches) := dict_pop (name node) patches in
        match patch with
        | None =>
            let '(rest, patches) := patch_scan rest patches in
            ((unique_id, node) :: rest, patches)
        | Some patch =>
            if negb (patch_truthy patch) then
              let '(rest, patches) := patch_scan rest patches in
              ((unique_id, node) :: rest, patches)
            else
              let '(rest, patches) := patch_scan rest patches in
              ((unique_id, node_patch node patch) :: rest, patches)
        end
  end.

Definition dquote : string := String (ascii_of_nat 34) EmptyString.

(** The message [logger.debug] gets for a patch that found no node. *)
Definition patch_warning `{Patching} (patch : Patch) : string :=
  "WARNING: Found documentation for model " +:+ dquote +:+ patch_name patch +:+
  dquote +:+ " which was not found or is disabled".

(** [patch_nodes(patches)]: the nodes of the manifest and the patches
    after the call, and the lines logged. *)
Definition patch_nodes `{Patching} (self : Manifest) (patches : dict Patch)
  : Manifest * dict Patch * list string :=
  let '(self_nodes, patches) := patch_scan (nodes self) patches in
  let logged :=
    if decide (patches ≠ []) then patch_warning <$> dict_values patches else [] in
  (mkManifest self_nodes (macros self) (docs self) (generated_at self),
   patches, logged).

(** ** The vocabulary of the properties *)

(** The dictionary of locations [d] holds, in the store [h], the lists of
    the dictionary of values [P]: key by key, at locations of [h], two
    keys never sharing a list. *)
Record rep (h : heap) (d : gmap string loc) (P : gmap string (list string)) : Prop := {
  rep_lists : ∀ k, P !! k = d !! k ≫= (h !!.);
  rep_alloc : ∀ k l, d !! k = Some l → l < length h;
  rep_inj : ∀ k1 k2 l, d !! k1 = Some l → d !! k2 = Some l → k1 = k2
}.

(** The two results of a run on the store and of the run on values: both
    return, and [good] relates what they return, or both raise the same
    exception. *)
Definition agree {A B} (good : A → B → Prop) (r : result A) (v : result B) : Prop :=
  match r, v with
  | Ok a, Ok b => good a b
  | Raise e, Raise e' => e = e'
  | _, _ => False
  end.

(** The lists the nodes refer to exist in the store. *)
Definition store_ok (h : heap) (nodes : list Node) : Prop :=
  Forall (λ node, depends_on_nodes node < length h) nodes.

(** The keys of the nodes are unique. *)
Definition unique_keys (nodes : list Node) : Prop :=
  NoDup (unique_id <$> nodes).

(** Every dependency key is the key of a node of the collection. *)
Definition complete (h : heap) (nodes : list Node) : Prop :=
  Forall (λ node, Forall (λ d, d ∈ unique_id <$> nodes) (node_deps h node)) nodes.

(** The key [unique_id] splits into a package and a name that match the
    lookup: the name is the one looked up, and the package is the one
    looked up unless none is given. *)
Definition doc_matches (name : string) (package : option string)
    (unique_id : string) : Prop :=
  ∃ found_package found_node,
    split "." unique_id = [found_package; found_node] ∧
    name = found_node ∧ (package = None ∨ package = Some found_package).

(** The key splits into exactly two segments. *)
Definition two_segments (unique_id : string) : Prop :=
  length (split "." unique_id) = 2.

(** A doc the scan passes over: its key is well formed and does not
    match. *)
Definition passed_over (name : string) (package : option string)
    (item : string * Doc) : Prop :=
  two_segments item.1 ∧ ¬ doc_matches name package item.1.

(** The three ways a scan ends: past every doc, at the first doc that
    matches, or at the first doc whose key is malformed; the docs before
    are all passed over. *)
Inductive scan_end (name : string) (package : option string)
  : dict Doc → result (option Doc) → Prop :=
| scan_none items :
    Forall (passed_over name package) items →
    scan_end name package items (Ok None)
| scan_found pre unique_id doc post :
    Forall (passed_over name package) pre →
    doc_matches name package unique_id →
    scan_end name package (pre ++ (unique_id, doc) :: post) (Ok (Some doc))
| scan_malformed pre unique_id doc post :
    Forall (passed_over name package) pre →
    ¬ two_segments unique_id →
    scan_end name package (pre ++ (unique_id, doc) :: post)
             (Raise (CompilationException doc_name_msg doc)).

(** The names of the nodes of resource type [Model], in order. *)
Definition model_names (self_nodes : dict Node) : list string :=
  name <$> filter (λ node, resource_type node = Model) (dict_values self_nodes).

(** What the scan makes of [node], which comes after the nodes [earlier]:
    a model whose name no earlier model has gets the patch of that name,
    when there is one and it is true; any other node is left as it is. *)
Definition patched `{Patching} (patches : dict Patch) (earlier : dict Node)
    (node : Node) : Node :=
  if decide (resource_type node = Model ∧ name node ∉ model_names earlier) then
    match dict_get (name node) patches with
    | Some patch => if patch_truthy patch then node_patch node patch else node
    | None => node
    end
  else node.

(** The character [c] occurs in [s]. *)
Fixpoint has_char (c : ascii) (s : string) : bool :=
  match s with
  | EmptyString => false
  | String c' rest => bool_decide (c' = c) || has_char c rest
  end.

(** [sep.join(parts)] for a one-character separator. *)
Fixpoint join (sep : ascii) (parts : list string) : string :=
  match parts with
  | [] => EmptyString
  | [part] => part
  | part :: rest => part +:+ String sep (join sep rest)
  end.

(** The key of the doc [name] of [package]. *)
Definition doc_key (package name : string) : string :=
  package +:+ String "." name.

(** Patching a node changes neither its name nor its resource type. *)
Definition patch_keeps_identity `{Patching} : Prop :=
  ∀ node patch,
    name (node_patch node patch) = name node ∧
    resource_type (node_patch node patch) = resource_type node.

(** ** Sample inputs *)

(** The scenario of the spec: A, B depending on A, C depending on A and B. *)
Definition store_abc : heap := [ []; ["A"]; ["A"; "B"] ].
Definition nodes_abc : list Node :=
  [ mkNode "A" "a" "pkg" Model 0 "";
    mkNode "B" "b" "pkg" Model 1 "";
    mkNode "C" "c" "pkg" Model 2 "" ].

(** A manifest over the nodes of the scenario, and a serializer that keeps
    the key of what it serializes. *)
Definition key_serializer : Serializer :=
  {| Json := string;
     serialize_node := λ _ node, unique_id node;
     serialize_macro := macro_unique_id;
     serialize_doc := doc_unique_id |}.

Definition manifest_abc : Manifest :=
  mkManifest ((λ node, (unique_id node, node)) <$> nodes_abc) [] []
             "2018-02-14T09:15:13Z".

(** A manifest whose only doc has the key [pkg1.overview]. *)
Definition docs_overview (doc : Doc) : Manifest :=
  mkManifest [] [] [("pkg1.overview", doc)] "".

Definition overview_doc : Doc := mkDoc "pkg1.overview" "An overview".
Definition malformed_doc : Doc := mkDoc "a.b.c" "A block".

(** A manifest with the doc key [a.b.c] after [pkg1.overview]. *)
Definition docs_mixed : Manifest :=
  mkManifest [] [] [("pkg1.overview", overview_doc); ("a.b.c", malformed_doc)] "".

(** The name, the package and the resource type of what a subgraph
    holds. *)
Definition entity_name (e : Entity) : string :=
  match e with ENode node => name node | EMacro macro => macro_name macro end.
Definition entity_package (e : Entity) : string :=
  match e with
  | ENode node => package_name node
  | EMacro macro => macro_package_name macro
  end.
Definition entity_type (e : Entity) : NodeType :=
  match e with
  | ENode node => resource_type node
  | EMacro macro => macro_resource_type macro
  end.

(** Modelled from the spec: [dbt.utils.find_in_subgraph_by_name] is not
    under src/; the spec has the search return the first entry whose name
    matches, whose resource type is accepted and whose package matches
    unless none is given.  The naming rule, which the spec leaves to the
    collaborator, joins the materialization and the adapter type,
    [default] when unset.  This choice of the parameters only runs the
    examples; the properties hold for every choice. *)
Definition sample_utils : Utils :=
  {| refable := [Model; Seed];
     get_materialization_macro_name := λ materialization_name adapter_type with_prefix,
       (if with_prefix then "dbt__" else "") +:+ "materialization_" +:+
       materialization_name +:+ "_" +:+ default "default" adapter_type;
     find_in_subgraph_by_name := λ search target_name target_package nodetype,
       (snd ∘ snd) <$>
         list_find (λ item,
           entity_name item.2 = target_name ∧ entity_type item.2 ∈ nodetype ∧
           (target_package = None ∨ target_package = Some (entity_package item.2)))
           search |}.

Definition table_default : ParsedMacro :=
  mkMacro "macro.dbt.materialization_table_default" "materialization_table_default"
          "dbt" Macro.

Definition only_default : Manifest :=
  mkManifest [] [("macro.dbt.materialization_table_default", table_default)] [] "".

(** Nodes of a shop project; [customers_again] has the key of
    [customers]. *)
Definition customers : Node := mkNode "model.shop.customers" "customers" "shop" Model 0 "".
Definition orders : Node := mkNode "model.shop.orders" "orders" "shop" Model 0 "".
Definition customers_again : Node :=
  mkNode "model.shop.customers" "customers" "shop" Model 0 "a second definition".

(** One choice of the parameters, to run [patch_nodes]: a patch is a
    mapping of fields to text, true when it is not empty, named by its
    [name] field, and patching a node overwrites its description. *)
Definition content_patching : Patching :=
  {| Patch := dict string;
     patch_name := λ patch, default "" (dict_get "name" patch);
     patch_truthy := λ patch, bool_decide (patch ≠ []);
     node_patch := λ node patch,
       mkNode (unique_id node) (name node) (package_name node) (resource_type node)
              (depends_on_nodes node)
              (default (description node) (dict_get "description" patch)) |}.

Definition customers_patch : dict string :=
  [("name", "customers"); ("description", "One row per customer")].
Definition payments_patch : dict string :=
  [("name", "payments"); ("description", "One row per payment")].

Definition customers_patched : Node :=
  mkNode "model.shop.customers" "customers" "shop" Model 0 "One row per customer".

Definition shop : Manifest :=
  mkManifest [("model.shop.customers", customers); ("model.shop.orders", orders)]
             [] [] "".

(** Two models named [customers], in two packages. *)
Definition customers_crm : Node :=
  mkNode "model.crm.customers" "customers" "crm" Model 0 "".

Definition two_packages : Manifest :=
  mkManifest [("model.shop.customers", customers);
              ("model.crm.customers", customers_crm)] [] [] "".

(** * Properties *)

(** ** The monad *)

Lemma bind_ok {S A B} (m : M S A) (f : A → M S B) s a s' :
  m s = (Ok a, s') → (m ≫= f) s = f a s'.
Proof. intros E. unfold mbind, M_bind. by rewrite E. Qed.

Lemma bind_raise {S A B} (m : M S A) (f : A → M S B) s e s' :
  m s = (Raise e, s') → (m ≫= f) s = (Raise e, s').
Proof. intros E. unfold mbind, M_bind. by rewrite E. Qed.

Lemma for_each_cons {S A} (x : A) rest (body : A → M S unit) s :
  for_each (x :: rest) body s =
    match body x s with
    | (Ok _, s') => for_each rest body s'
    | (Raise e, s') => (Raise e, s')
    end.
Proof. reflexivity. Qed.

(** ** build_edges: the store and the values *)

Lemma rep_empty h : rep h ∅ ∅.
Proof. split; intros *; rewrite ?lookup_empty; done. Qed.

Lemma rep_edge_lists h d P : rep h d P → edge_lists h d = P.
Proof.
  intros R. apply map_eq. intros k. unfold edge_lists.
  by rewrite lookup_omap, (rep_lists _ _ _ R).
Qed.

Lemma rep_is_Some h d P k l : rep h d P → d !! k = Some l → is_Some (P !! k).
Proof.
  intros R E. rewrite (rep_lists _ _ _ R), E. simpl.
  apply lookup_lt_is_Some. eapply rep_alloc; eauto.
Qed.

Lemma rep_None h d P k : rep h d P → d !! k = None ↔ P !! k = None.
Proof.
  intros R. split; intros E.
  - by rewrite (rep_lists _ _ _ R), E.
  - destruct (d !! k) as [l|] eqn:D; [|done].
    destruct (rep_is_Some _ _ _ _ _ R D) as [v Hv]. congruence.
Qed.

(** A store that agrees with [h] on the lists of [d] represents the same
    values. *)
Lemma rep_frame h h' d P :
  rep h d P → length h ≤ length h' →
  (∀ k l, d !! k = Some l → h' !! l = h !! l) →
  rep h' d P.
Proof.
  intros R Hlen Hsame. split.
  - intros k. rewrite (rep_lists _ _ _ R).
    destruct (d !! k) as [l|] eqn:D; simpl; [|done]. symmetry. eauto.
  - intros k l D. pose proof (rep_alloc _ _ _ R _ _ D). lia.
  - apply R.
Qed.

Lemma rep_app h x d P : rep h d P → rep (h ++ x) d P.
Proof.
  intros R. apply (rep_frame h); [done | rewrite length_app; lia |].
  intros k l D. apply lookup_app_l. eapply rep_alloc; eauto.
Qed.

(** A new list bound to a key. *)
Lemma rep_alloc_insert h d P k v :
  rep h d P → rep (h ++ [v]) (<[k := length h]> d) (<[k := v]> P).
Proof.
  intros R. split.
  - intros k'. destruct (decide (k = k')) as [->|Hne].
    + rewrite !lookup_insert_eq. simpl. by rewrite list_lookup_middle.
    + rewrite !lookup_insert_ne by done. apply (rep_app _ [v]) in R. apply R.
  - intros k' l. rewrite length_app. simpl.
    destruct (decide (k = k')) as [->|Hne].
    + rewrite lookup_insert_eq. intros [= <-]. lia.
    + rewrite lookup_insert_ne by done. intros D.
      pose proof (rep_alloc _ _ _ R _ _ D). lia.
  - intros k1 k2 l.
    destruct (decide (k = k1)) as [<-|H1], (decide (k = k2)) as [<-|H2];
      rewrite ?lookup_insert_eq, ?lookup_insert_ne by done; try done.
    + intros [= <-] D. pose proof (rep_alloc _ _ _ R _ _ D). lia.
    + intros D [= <-]. pose proof (rep_alloc _ _ _ R _ _ D). lia.
    + apply R.
Qed.

(** The comprehension: one empty list per node, after the lists of [h]. *)
Lemma forward_comprehension_spec h0 nodes : ∀ acc h P lo,
  rep h acc P → lo ≤ length h → (∀ k l, acc !! k = Some l → lo ≤ l) →
  ∃ fwd,
    forward_comprehension nodes acc h
      = (Ok fwd, h ++ replicate (length nodes) []) ∧
    rep (h ++ replicate (length nodes) []) fwd
        (forward_values (node_value h0 <$> nodes) P) ∧
    (∀ k l, fwd !! k = Some l → lo ≤ l).
Proof.
  induction nodes as [|node rest IH]; intros acc h P lo R Hlo Hacc.
  - exists acc. simpl. rewrite app_nil_r. done.
  - destruct (IH (<[unique_id node := length h]> acc) (h ++ [[]])
                 (<[unique_id node := []]> P) lo) as (fwd & E & R' & Hfwd).
    + by apply rep_alloc_insert.
    + rewrite length_app. lia.
    + intros k l. destruct (decide (unique_id node = k)) as [->|Hne].
      * rewrite lookup_insert_eq. intros [= <-]. done.
      * rewrite lookup_insert_ne by done. apply Hacc.
    + exists fwd. simpl.
      replace (h ++ [] :: replicate (length rest) [])
        with ((h ++ [[]]) ++ replicate (length rest) ([] : list string))
        by (by rewrite <- app_assoc).
      split; [|done].
      erewrite bind_ok; [exact E | reflexivity].
Qed.

(** The inner loop: it only writes to the lists of the forward map. *)
Lemma for_each_append_forward fwd node_id deps : ∀ h F,
  rep h fwd F →
  ∃ r h',
    for_each deps (append_forward fwd node_id) h = (r, h') ∧
    length h' = length h ∧
    (∀ l, (∀ k, fwd !! k ≠ Some l) → h' !! l = h !! l) ∧
    agree (λ _ F', rep h' fwd F') r (append_values F node_id deps).
Proof.
  induction deps as [|d rest IH]; intros h F R.
  - exists (Ok ()), h. done.
  - rewrite for_each_cons. simpl. unfold append_forward.
    destruct (fwd !! d) as [l|] eqn:D.
    + destruct (rep_is_Some _ _ _ _ _ R D) as [v Hv]. rewrite Hv.
      unfold list_append.
      set (h1 := alter (λ v, v ++ [node_id]) l h).
      assert (R1 : rep h1 fwd (<[d := v ++ [node_id]]> F)).
      { split.
        - intros k. destruct (decide (d = k)) as [<-|Hne].
          + rewrite lookup_insert_eq, D. simpl. unfold h1.
            rewrite list_lookup_alter_eq.
            pose proof (rep_lists _ _ _ R d) as Hd. rewrite D, Hv in Hd.
            simpl in Hd. by rewrite <- Hd.
          + rewrite lookup_insert_ne by done. rewrite (rep_lists _ _ _ R).
            destruct (fwd !! k) as [l'|] eqn:D'; simpl; [|done].
            unfold h1. rewrite list_lookup_alter_ne; [done|].
            intros <-. apply Hne. eapply rep_inj; eauto.
        - intros k l' D'. unfold h1. rewrite length_alter.
          eapply rep_alloc; eauto.
        - apply R. }
      destruct (IH h1 _ R1) as (r & h' & E & Hlen & Hframe & Hag).
      exists r, h'. split; [exact E|]. split; [|split; [|exact Hag]].
      * rewrite Hlen. unfold h1. apply length_alter.
      * intros l' Hl'. rewrite Hframe by done. unfold h1.
        apply list_lookup_alter_ne. intros <-. by apply (Hl' d).
    + apply (rep_None _ _ _ _ R) in D. rewrite D.
      exists (Raise (KeyError d)), h. done.
Qed.

(** The outer loop, started in a store [h] that extends [h0], the store
    the nodes were read in. *)
Lemma edges_loop_spec h0 nodes : ∀ fwd bwd h F B,
  store_ok h0 nodes →
  length h0 ≤ length h → (∀ l, l < length h0 → h !! l = h0 !! l) →
  rep h fwd F → rep h bwd B →
  (∀ k l, fwd !! k = Some l → length h0 ≤ l) →
  (∀ k k' l, fwd !! k = Some l → bwd !! k' ≠ Some l) →
  ∃ r h',
    edges_loop nodes fwd bwd h = (r, h') ∧
    length h ≤ length h' ∧
    (∀ l, l < length h0 → h' !! l = h0 !! l) ∧
    agree (λ bwd' '(F', B'),
             rep h' fwd F' ∧ rep h' bwd' B' ∧
             (∀ k l, bwd' !! k = Some l → bwd !! k = Some l ∨ length h ≤ l))
          r (edges_values_loop (node_value h0 <$> nodes) F B).
Proof.
  induction nodes as [|node rest IH];
    intros fwd bwd h F B Hok Hlen Hold RF RB Hfwd Hdisj.
  - exists (Ok bwd), h. simpl. split; [done|]. split; [done|]. split; [done|].
    split; [done|]. split; [done|]. auto.
  - apply Forall_cons in Hok as [Hnode Hok].
    assert (Hdeps : contents h (depends_on_nodes node) = node_deps h0 node).
    { unfold node_deps, contents. by rewrite Hold. }
    set (deps := node_deps h0 node) in *.
    set (h1 := h ++ [deps]).
    set (bwd1 := <[unique_id node := length h]> bwd).
    assert (RF1 : rep h1 fwd F) by (by apply rep_app).
    assert (RB1 : rep h1 bwd1 (<[unique_id node := deps]> B))
      by (by apply rep_alloc_insert).
    destruct (for_each_append_forward fwd (unique_id node) deps h1 F RF1)
      as (r1 & h2 & E1 & Hlen2 & Hframe & Hag1).
    assert (Hlen1 : length h1 = S (length h))
      by (unfold h1; rewrite length_app; simpl; lia).
    assert (Hstep : edges_loop (node :: rest) fwd bwd h =
              match r1 with
              | Ok _ => edges_loop rest fwd bwd1 h2
              | Raise e => (Raise e, h2)
              end).
    { simpl. unfold mbind at 1, M_bind at 1, load. rewrite Hdeps.
      unfold mbind at 1, M_bind at 1, alloc. fold h1. fold bwd1.
      unfold mbind at 1, M_bind at 1. rewrite E1. by destruct r1. }
    assert (Hold2 : ∀ l, l < length h0 → h2 !! l = h0 !! l).
    { intros l Hl. rewrite Hframe.
      - unfold h1. rewrite lookup_app_l by lia. by apply Hold.
      - intros k D. apply Hfwd in D. lia. }
    rewrite Hstep.
    change (edges_values_loop (node_value h0 <$> node :: rest) F B)
      with (match append_values F (unique_id node) deps with
            | Raise e => Raise e
            | Ok F1 => edges_values_loop (node_value h0 <$> rest) F1
                         (<[unique_id node := deps]> B)
            end).
    destruct r1 as [[]|e], (append_values F (unique_id node) deps) as [F1|e'];
      simpl in Hag1; try done.
    + destruct (IH fwd bwd1 h2 F1 (<[unique_id node := deps]> B))
        as (r & h' & E & Hlen' & Hold' & Hag); auto.
      * lia.
      * apply (rep_frame h1); [done | lia |].
        intros k l D. apply Hframe. intros k' D'. revert D. unfold bwd1.
        destruct (decide (unique_id node = k)) as [<-|Hne].
        -- rewrite lookup_insert_eq. intros [= <-].
           pose proof (rep_alloc _ _ _ RF _ _ D'). lia.
        -- rewrite lookup_insert_ne by done. by apply Hdisj with (k := k').
      * intros k k' l D. unfold bwd1.
        destruct (decide (unique_id node = k')) as [<-|Hne].
        -- rewrite lookup_insert_eq. intros [= <-].
           pose proof (rep_alloc _ _ _ RF _ _ D). lia.
        -- rewrite lookup_insert_ne by done. by apply Hdisj with (k := k).
      * exists r, h'. split; [exact E|].
        split; [lia|]. split; [exact Hold'|].
        destruct r as [bwd'|e], (edges_values_loop _ F1 _) as [[F' B']|e'];
          simpl in *; try done.
        destruct Hag as (RF' & RB' & Hloc).
        split; [done|]. split; [done|]. intros k l D. apply Hloc in D as [D|D]; [|right; lia].
        revert D. unfold bwd1.
        destruct (decide (unique_id node = k)) as [<-|Hne].
        -- rewrite lookup_insert_eq. intros [= <-]. by right.
        -- rewrite lookup_insert_ne by done. by left.
    + exists (Raise e), h2. split; [done|].
      split; [lia|]. split; [exact Hold2|]. exact Hag1.
Qed.

(** [build_edges] on the store does what [build_edges_values] does on the
    values of the nodes: the same exception, or dictionaries of new lists
    that hold the same values; the lists of [h] are left as they were. *)
Lemma build_edges_refines h nodes :
  store_ok h nodes →
  ∃ r h',
    build_edges nodes h = (r, h') ∧
    length h ≤ length h' ∧
    (∀ l, l < length h → h' !! l = h !! l) ∧
    agree (λ '(fwd, bwd) '(F, B),
             rep h' fwd F ∧ rep h' bwd B ∧
             (∀ k l, fwd !! k = Some l → length h ≤ l) ∧
             (∀ k l, bwd !! k = Some l → length h ≤ l))
          r (build_edges_values (node_value h <$> nodes)).
Proof.
  intros Hok.
  destruct (forward_comprehension_spec h nodes ∅ h ∅ (length h))
    as (fwd & E1 & RF & Hfwd); [apply rep_empty | done | by intros ?? |].
  set (h1 := h ++ replicate (length nodes) []) in *.
  assert (Hlen1 : length h ≤ length h1) by (unfold h1; rewrite length_app; lia).
  destruct (edges_loop_spec h nodes fwd ∅ h1
              (forward_values (node_value h <$> nodes) ∅) ∅ Hok Hlen1)
    as (r & h' & E2 & Hlen' & Hold & Hag).
  - intros l Hl. unfold h1. by apply lookup_app_l.
  - exact RF.
  - apply rep_empty.
  - exact Hfwd.
  - intros k k' l _. by rewrite lookup_empty.
  - unfold build_edges, build_edges_values.
    rewrite (bind_ok _ _ _ _ _ E1).
    destruct r as [bwd|e].
    + exists (Ok (fwd, bwd)), h'. rewrite (bind_ok _ _ _ _ _ E2).
      split; [done|]. split; [lia|]. split; [done|].
      destruct (edges_values_loop _ _ _) as [[F B]|e]; simpl in *; [|done].
      destruct Hag as (RF' & RB' & Hloc). repeat (split; [done|]).
      intros k l D. apply Hloc in D as [D|D]; [by rewrite lookup_empty in D | lia].
    + exists (Raise e), h'. rewrite (bind_raise _ _ _ _ _ E2).
      split; [done|]. split; [lia|]. split; [done|].
      by destruct (edges_values_loop _ _ _) as [[F B]|e'].
Qed.

(** ** build_edges on values *)

Lemma forward_values_lookup ns : ∀ acc k,
  forward_values ns acc !! k = if decide (k ∈ ns.*1) then Some [] else acc !! k.
Proof.
  induction ns as [|[u ds] rest IH]; intros acc k.
  - done.
  - cbn [forward_values]. rewrite IH, fmap_cons. cbn [fst].
    destruct (decide (k = u)) as [->|Hne].
    + rewrite lookup_insert_eq.
      destruct (decide (u ∈ u :: rest.*1)) as [_|Hnot]; [by destruct (decide _)|].
      exfalso. apply Hnot. left.
    + rewrite lookup_insert_ne by done. apply decide_ext.
      rewrite elem_of_cons. tauto.
Qed.

(** One copy of [node_id] per occurrence of a key in [deps], after what
    the key already had. *)
Lemma append_values_spec node_id deps : ∀ F,
  (∀ d, d ∈ deps → is_Some (F !! d)) →
  ∃ F', append_values F node_id deps = Ok F' ∧
    ∀ k, F' !! k =
      (λ v, v ++ ((λ _, node_id) <$> filter (λ d, d = k) deps)) <$> F !! k.
Proof.
  induction deps as [|d rest IH]; intros F Hin; simpl.
  - exists F. split; [done|]. intros k. destruct (F !! k); simpl; [|done].
    by rewrite app_nil_r.
  - destruct (Hin d) as [v Hv]; [left|]. rewrite Hv.
    destruct (IH (<[d := v ++ [node_id]]> F)) as (F' & E & HF').
    { intros d' Hd'. destruct (decide (d = d')) as [<-|Hne].
      - rewrite lookup_insert_eq. eauto.
      - rewrite lookup_insert_ne by done. apply Hin. by right. }
    exists F'. split; [done|]. intros k. rewrite HF'.
    destruct (decide (d = k)) as [<-|Hne].
    + rewrite lookup_insert_eq, Hv. simpl. rewrite filter_cons_True by done.
      simpl. by rewrite <- app_assoc.
    + rewrite lookup_insert_ne by done. by rewrite filter_cons_False by done.
Qed.

Lemma dependents_cons u ds rest k :
  dependents ((u, ds) :: rest) k =
    ((λ _, u) <$> filter (λ d, d = k) ds) ++ dependents rest k.
Proof. reflexivity. Qed.

Lemma elem_of_dependents ns k x :
  x ∈ dependents ns k ↔ ∃ ds, (x, ds) ∈ ns ∧ k ∈ ds.
Proof.
  unfold dependents. rewrite list_elem_of_bind. split.
  - intros ([u ds] & Hx & Hin). apply list_elem_of_fmap in Hx as (d & -> & Hd).
    apply list_elem_of_filter in Hd as [-> Hd]. eauto.
  - intros (ds & Hin & Hk). exists (x, ds). split; [|done].
    apply list_elem_of_fmap. exists k. split; [done|].
    by apply list_elem_of_filter.
Qed.

(** The loop on values, when every dependency has a forward entry. *)
Lemma edges_values_loop_spec ns : ∀ F B,
  (∀ u ds d, (u, ds) ∈ ns → d ∈ ds → is_Some (F !! d)) →
  ∃ F' B', edges_values_loop ns F B = Ok (F', B') ∧
    (∀ k, F' !! k = (λ v, v ++ dependents ns k) <$> F !! k) ∧
    (∀ k, k ∉ ns.*1 → B' !! k = B !! k) ∧
    (NoDup ns.*1 → ∀ u ds, (u, ds) ∈ ns → B' !! u = Some ds).
Proof.
  induction ns as [|[u ds] rest IH]; intros F B Hin; cbn [edges_values_loop].
  - exists F, B. split; [done|]. split; [|split; [done|]].
    + intros k. destruct (F !! k); simpl; [|done]. by rewrite app_nil_r.
    + intros _ ? ? []%elem_of_nil.
  - destruct (append_values_spec u ds F) as (F1 & E1 & HF1).
    { intros d Hd. apply (Hin u ds); [left | done]. }
    rewrite E1.
    destruct (IH F1 (<[u := ds]> B)) as (F' & B' & E & HF' & HB' & HB'').
    { intros u' ds' d Hu' Hd. rewrite HF1.
      destruct (Hin u' ds' d) as [v Hv]; [by right | done |].
      rewrite Hv. simpl. eauto. }
    exists F', B'. split; [done|]. split; [|split].
    + intros k. rewrite HF', HF1, dependents_cons.
      destruct (F !! k); simpl; [|done]. by rewrite <- app_assoc.
    + intros k Hk. rewrite HB'.
      * apply lookup_insert_ne. intros <-. apply Hk. left.
      * intros Hk'. apply Hk. by right.
    + intros [Hu Hnd]%NoDup_cons u' ds' [[= -> ->]|Hin']%elem_of_cons.
      * rewrite HB' by done. apply lookup_insert_eq.
      * by apply HB''.
Qed.

Lemma build_edges_values_complete ns :
  NoDup ns.*1 →
  (∀ u ds d, (u, ds) ∈ ns → d ∈ ds → d ∈ ns.*1) →
  ∃ F B, build_edges_values ns = Ok (F, B) ∧
    (∀ k, k ∈ ns.*1 → F !! k = Some (dependents ns k)) ∧
    (∀ u ds, (u, ds) ∈ ns → B !! u = Some ds).
Proof.
  intros Hnd Hcomplete. unfold build_edges_values.
  destruct (edges_values_loop_spec ns (forward_values ns ∅) ∅)
    as (F & B & E & HF & _ & HB).
  { intros u ds d Hin Hd. rewrite forward_values_lookup.
    rewrite decide_True; eauto. }
  exists F, B. split; [done|]. split; [|by apply HB].
  intros k Hk. by rewrite HF, forward_values_lookup, decide_True.
Qed.

(** ** build_edges on a referentially complete collection *)

Lemma node_value_keys h nodes : (node_value h <$> nodes).*1 = unique_id <$> nodes.
Proof. rewrite <- list_fmap_compose. done. Qed.

Lemma build_edges_complete h nodes :
  store_ok h nodes → unique_keys nodes → complete h nodes →
  ∃ fwd bwd h',
    build_edges nodes h = (Ok (fwd, bwd), h') ∧
    (∀ l, l < length h → h' !! l = h !! l) ∧
    (∀ k l, fwd !! k = Some l → length h ≤ l) ∧
    (∀ k l, bwd !! k = Some l → length h ≤ l) ∧
    (∀ node, node ∈ nodes →
       edge_lists h' fwd !! unique_id node
         = Some (dependents (node_value h <$> nodes) (unique_id node))) ∧
    (∀ node, node ∈ nodes →
       edge_lists h' bwd !! unique_id node = Some (node_deps h node)).
Proof.
  intros Hok Huniq Hcomplete.
  destruct (build_edges_refines h nodes Hok) as (r & h' & E & _ & Hold & Hag).
  destruct (build_edges_values_complete (node_value h <$> nodes))
    as (F & B & EV & HF & HB).
  { by rewrite node_value_keys. }
  { intros u ds d Hin Hd. rewrite node_value_keys.
    apply list_elem_of_fmap in Hin as (node & [= -> ->] & Hnode).
    unfold complete in Hcomplete. rewrite Forall_forall in Hcomplete.
    specialize (Hcomplete node Hnode). rewrite Forall_forall in Hcomplete. eauto. }
  rewrite EV in Hag. destruct r as [[fwd bwd]|e]; simpl in Hag; [|done].
  destruct Hag as (RF & RB & Hfwd & Hbwd).
  exists fwd, bwd, h'. repeat (split; [done|]). split.
  - intros node Hnode. rewrite (rep_edge_lists _ _ _ RF). apply HF.
    rewrite node_value_keys. by apply list_elem_of_fmap_2.
  - intros node Hnode. rewrite (rep_edge_lists _ _ _ RB).
    apply HB. by apply (list_elem_of_fmap_2 (node_value h)).
Qed.

Lemma node_deps_frame h h' node :
  depends_on_nodes node < length h →
  (∀ l, l < length h → h' !! l = h !! l) →
  node_deps h' node = node_deps h node.
Proof. intros Hl Hold. unfold node_deps, contents. by rewrite Hold. Qed.

(** C1: for nodes with unique keys whose dependency keys all name nodes
    of the collection, [build_edges] returns; its forward map has a list
    for the key of every node, and its backward map has, for the key of
    every node, a list with the elements of the node's [depends_on_nodes]
    that is another object than that list, which is left untouched. *)
Theorem build_edges_entries h nodes :
  store_ok h nodes → unique_keys nodes → complete h nodes →
  ∃ fwd bwd h',
    build_edges nodes h = (Ok (fwd, bwd), h') ∧
    ∀ node, node ∈ nodes →
      is_Some (edge_lists h' fwd !! unique_id node) ∧
      edge_lists h' bwd !! unique_id node = Some (node_deps h' node) ∧
      node_deps h' node = node_deps h node ∧
      bwd !! unique_id node ≠ Some (depends_on_nodes node).
Proof.
  intros Hok Huniq Hcomplete.
  destruct (build_edges_complete h nodes Hok Huniq Hcomplete)
    as (fwd & bwd & h' & E & Hold & Hfwd & Hbwd & HF & HB).
  exists fwd, bwd, h'. split; [done|]. intros node Hnode.
  assert (Hl : depends_on_nodes node < length h).
  { unfold store_ok in Hok. rewrite Forall_forall in Hok. by apply Hok. }
  assert (Hdeps : node_deps h' node = node_deps h node)
    by (by apply node_deps_frame).
  split; [rewrite HF by done; eauto|]. split; [by rewrite HB, Hdeps|].
  split; [done|]. intros D. apply Hbwd in D. lia.
Qed.

(** With unique keys, a key names one node. *)
Lemma unique_keys_inj nodes a b :
  unique_keys nodes → a ∈ nodes → b ∈ nodes → unique_id a = unique_id b → a = b.
Proof.
  unfold unique_keys. induction nodes as [|node rest IH]; intros Hnd Ha Hb Hab.
  - by apply elem_of_nil in Ha.
  - rewrite fmap_cons in Hnd. apply NoDup_cons in Hnd as [Hnotin Hnd].
    apply elem_of_cons in Ha as [->|Ha], Hb as [->|Hb]; auto.
    + exfalso. apply Hnotin. rewrite Hab. by apply list_elem_of_fmap_2.
    + exfalso. apply Hnotin. rewrite <- Hab. by apply list_elem_of_fmap_2.
Qed.

(** The dependents listed for [a] are the nodes that depend on it. *)
Lemma dependents_nodes h nodes a b :
  unique_keys nodes → b ∈ nodes →
  unique_id b ∈ dependents (node_value h <$> nodes) a ↔ a ∈ node_deps h b.
Proof.
  intros Huniq Hb. rewrite elem_of_dependents. split.
  - intros (ds & Hin & Ha).
    apply list_elem_of_fmap in Hin as (node & [= Hid ->] & Hnode).
    by rewrite (unique_keys_inj nodes b node).
  - intros Ha. exists (node_deps h b). split; [|done].
    by apply (list_elem_of_fmap_2 (node_value h)).
Qed.

(** C2: the edge mirror property.  For nodes [a] and [b] of a collection
    with unique keys whose dependency keys all name nodes of it, the
    dependency list of [b] contains the key of [a] if and only if the key
    of [b] is in the forward list of [a] and the key of [a] is in the
    backward list of [b]. *)
Theorem build_edges_mirror h nodes :
  store_ok h nodes → unique_keys nodes → complete h nodes →
  ∃ fwd bwd h',
    build_edges nodes h = (Ok (fwd, bwd), h') ∧
    ∀ a b, a ∈ nodes → b ∈ nodes →
      unique_id a ∈ node_deps h b ↔
        (∃ dependents_a, edge_lists h' fwd !! unique_id a = Some dependents_a ∧
                         unique_id b ∈ dependents_a) ∧
        (∃ deps_b, edge_lists h' bwd !! unique_id b = Some deps_b ∧
                   unique_id a ∈ deps_b).
Proof.
  intros Hok Huniq Hcomplete.
  destruct (build_edges_complete h nodes Hok Huniq Hcomplete)
    as (fwd & bwd & h' & E & _ & _ & _ & HF & HB).
  exists fwd, bwd, h'. split; [done|]. intros a b Ha Hb.
  rewrite (HF a Ha), (HB b Hb). split.
  - intros Hdep. split; eexists; (split; [done|]); [|done].
    by apply dependents_nodes.
  - intros [_ (deps_b & [= <-] & Hin)]. done.
Qed.

(** The forward half alone: [b] is listed under [a] exactly when it
    depends on [a]. *)
Lemma build_edges_forward_mirror h nodes :
  store_ok h nodes → unique_keys nodes → complete h nodes →
  ∃ fwd bwd h',
    build_edges nodes h = (Ok (fwd, bwd), h') ∧
    ∀ a b, a ∈ nodes → b ∈ nodes →
      unique_id a ∈ node_deps h b ↔
        ∃ dependents_a, edge_lists h' fwd !! unique_id a = Some dependents_a ∧
                        unique_id b ∈ dependents_a.
Proof.
  intros Hok Huniq Hcomplete.
  destruct (build_edges_complete h nodes Hok Huniq Hcomplete)
    as (fwd & bwd & h' & E & _ & _ & _ & HF & HB).
  exists fwd, bwd, h'. split; [done|]. intros a b Ha Hb.
  rewrite (HF a Ha), <- (dependents_nodes h nodes) by done. split.
  - eauto.
  - by intros (? & [= <-] & ?).
Qed.

Example build_edges_abc :
  ∃ fwd bwd h',
    build_edges nodes_abc store_abc = (Ok (fwd, bwd), h') ∧
    (edge_lists h' fwd !! "A", edge_lists h' fwd !! "B", edge_lists h' fwd !! "C")
      = (Some ["B"; "C"], Some ["C"], Some []) ∧
    (edge_lists h' bwd !! "A", edge_lists h' bwd !! "B", edge_lists h' bwd !! "C")
      = (Some [], Some ["A"], Some ["A"; "B"]) ∧
    store_abc `prefix_of` h'.
Proof.
  eexists _, _, _. split; [reflexivity|]. split; [by vm_compute|].
  split; [by vm_compute|]. by eexists.
Qed.

(** A dependency on a key that no node has: the subscript raises. *)
Example build_edges_dangling :
  (build_edges [mkNode "B" "b" "pkg" Model 0 ""] [["A"]]).1 = Raise (KeyError "A").
Proof. reflexivity. Qed.

Lemma build_edges_entries_witness :
  store_ok store_abc nodes_abc ∧ unique_keys nodes_abc ∧
  complete store_abc nodes_abc ∧
  ∃ fwd bwd h',
    build_edges nodes_abc store_abc = (Ok (fwd, bwd), h') ∧
    ∀ node, node ∈ nodes_abc →
      is_Some (edge_lists h' fwd !! unique_id node) ∧
      edge_lists h' bwd !! unique_id node = Some (node_deps h' node) ∧
      node_deps h' node = node_deps store_abc node ∧
      bwd !! unique_id node ≠ Some (depends_on_nodes node).
Proof.
  assert (H1 : store_ok store_abc nodes_abc)
    by (apply (bool_decide_unpack _); vm_compute; reflexivity).
  assert (H2 : unique_keys nodes_abc)
    by (apply (bool_decide_unpack _); vm_compute; reflexivity).
  assert (H3 : complete store_abc nodes_abc)
    by (apply (bool_decide_unpack _); vm_compute; reflexivity).
  split; [exact H1|]. split; [exact H2|]. split; [exact H3|].
  exact (build_edges_entries store_abc nodes_abc H1 H2 H3).
Defined.

Lemma build_edges_mirror_witness :
  store_ok store_abc nodes_abc ∧ unique_keys nodes_abc ∧
  complete store_abc nodes_abc ∧
  ∃ fwd bwd h',
    build_edges nodes_abc store_abc = (Ok (fwd, bwd), h') ∧
    ∀ a b, a ∈ nodes_abc → b ∈ nodes_abc →
      unique_id a ∈ node_deps store_abc b ↔
        (∃ dependents_a, edge_lists h' fwd !! unique_id a = Some dependents_a ∧
                         unique_id b ∈ dependents_a) ∧
        (∃ deps_b, edge_lists h' bwd !! unique_id b = Some deps_b ∧
                   unique_id a ∈ deps_b).
Proof.
  assert (H1 : store_ok store_abc nodes_abc)
    by (apply (bool_decide_unpack _); vm_compute; reflexivity).
  assert (H2 : unique_keys nodes_abc)
    by (apply (bool_decide_unpack _); vm_compute; reflexivity).
  assert (H3 : complete store_abc nodes_abc)
    by (apply (bool_decide_unpack _); vm_compute; reflexivity).
  split; [exact H1|]. split; [exact H2|]. split; [exact H3|].
  exact (build_edges_mirror store_abc nodes_abc H1 H2 H3).
Defined.

(** ** serialize *)

Lemma edge_lists_frame h h' d :
  (∀ k l, d !! k = Some l → l < length h) →
  (∀ l, l < length h → h' !! l = h !! l) →
  edge_lists h' d = edge_lists h d.
Proof.
  intros Hd Hold. apply map_eq. intros k. unfold edge_lists.
  rewrite !lookup_omap. destruct (d !! k) as [l|] eqn:D; simpl; [|done].
  apply Hold. eauto.
Qed.

Lemma store_ok_mono h h' nodes :
  store_ok h nodes → length h ≤ length h' → store_ok h' nodes.
Proof. unfold store_ok. intros Hok Hlen. eapply Forall_impl; [exact Hok|]. simpl. lia. Qed.

Lemma node_value_frame h h' nodes :
  store_ok h nodes → (∀ l, l < length h → h' !! l = h !! l) →
  node_value h' <$> nodes = node_value h <$> nodes.
Proof.
  intros Hok Hold. apply list_fmap_ext. intros i node Hnode.
  unfold node_value. f_equal. apply node_deps_frame; [|done].
  unfold store_ok in Hok. rewrite Forall_lookup in Hok. eauto.
Qed.

(** [serialize] derives the two maps from the values of the nodes: the
    child map and the parent map it returns hold, in new lists, what
    [build_edges_values] computes from them. *)
Lemma serialize_edges `{Serializer} (self : Manifest) h :
  store_ok h (dict_values (nodes self)) →
  ∃ r h',
    serialize self h = (r, h') ∧
    length h ≤ length h' ∧
    (∀ l, l < length h → h' !! l = h !! l) ∧
    agree (λ s '(F, B),
             edge_lists h' (child_map s) = F ∧
             edge_lists h' (parent_map s) = B ∧
             (∀ k l, child_map s !! k = Some l → l < length h') ∧
             (∀ k l, parent_map s !! k = Some l → l < length h'))
          r (build_edges_values (node_value h <$> dict_values (nodes self))).
Proof.
  intros Hok.
  destruct (build_edges_refines h _ Hok) as (r & h' & E & Hlen & Hold & Hag).
  unfold serialize. destruct r as [[fwd bwd]|e].
  - rewrite (bind_ok _ _ _ _ _ E). eexists (Ok _), h'.
    split; [reflexivity|]. split; [done|]. split; [done|].
    destruct (build_edges_values _) as [[F B]|e]; simpl in *; [|done].
    destruct Hag as (RF & RB & _ & _).
    split; [by apply rep_edge_lists|]. split; [by apply rep_edge_lists|].
    split; [apply RF | apply RB].
  - rewrite (bind_raise _ _ _ _ _ E). exists (Raise e), h'.
    split; [done|]. split; [done|]. split; [done|].
    by destruct (build_edges_values _) as [[F B]|e'].
Qed.

(** C3: two calls of [serialize] in a row, on a manifest that is not
    changed in between, return parent maps and child maps that are equal
    by value (or raise the same exception); the maps of the first call
    still read the same after the second one.  The second call starts in
    the store the first one left, and nothing the first one made takes
    part in it: what a call returns is [build_edges_values] of the nodes
    as they are when it runs. *)
Theorem serialize_repeatable `{Serializer} (self : Manifest) h :
  store_ok h (dict_values (nodes self)) →
  ∃ r1 h1 r2 h2,
    serialize self h = (r1, h1) ∧
    serialize self h1 = (r2, h2) ∧
    agree (λ s1 s2,
             edge_lists h1 (parent_map s1) = edge_lists h2 (parent_map s2) ∧
             edge_lists h1 (child_map s1) = edge_lists h2 (child_map s2) ∧
             edge_lists h2 (parent_map s1) = edge_lists h1 (parent_map s1) ∧
             edge_lists h2 (child_map s1) = edge_lists h1 (child_map s1))
          r1 r2 ∧
    agree (λ s2 '(F, B),
             edge_lists h2 (child_map s2) = F ∧ edge_lists h2 (parent_map s2) = B)
          r2 (build_edges_values (node_value h1 <$> dict_values (nodes self))).
Proof.
  intros Hok.
  destruct (serialize_edges self h Hok) as (r1 & h1 & E1 & Hlen1 & Hold1 & Hag1).
  assert (Hok1 : store_ok h1 (dict_values (nodes self)))
    by (by apply (store_ok_mono h)).
  destruct (serialize_edges self h1 Hok1) as (r2 & h2 & E2 & Hlen2 & Hold2 & Hag2).
  rewrite (node_value_frame h h1) in Hag2 by done.
  exists r1, h1, r2, h2. split; [done|]. split; [done|].
  rewrite (node_value_frame h h1) by done.
  destruct r1 as [s1|e1], r2 as [s2|e2],
    (build_edges_values _) as [[F B]|e]; simpl in *; try done.
  - destruct Hag1 as (HF1 & HB1 & Hc1 & Hp1), Hag2 as (HF2 & HB2 & _ & _).
    split; [|done]. split; [congruence|]. split; [congruence|].
    split; by apply edge_lists_frame.
  - split; [congruence | done].
Qed.

Lemma serialize_repeatable_witness :
  store_ok store_abc (dict_values (nodes manifest_abc)) ∧
  ∃ r1 h1 r2 h2,
    @serialize key_serializer manifest_abc store_abc = (r1, h1) ∧
    @serialize key_serializer manifest_abc h1 = (r2, h2) ∧
    agree (λ s1 s2,
             edge_lists h1 (parent_map s1) = edge_lists h2 (parent_map s2) ∧
             edge_lists h1 (child_map s1) = edge_lists h2 (child_map s2) ∧
             edge_lists h2 (parent_map s1) = edge_lists h1 (parent_map s1) ∧
             edge_lists h2 (child_map s1) = edge_lists h1 (child_map s1))
          r1 r2 ∧
    agree (λ s2 '(F, B),
             edge_lists h2 (child_map s2) = F ∧ edge_lists h2 (parent_map s2) = B)
          r2 (build_edges_values (node_value h1 <$> dict_values (nodes manifest_abc))).
Proof.
  assert (H1 : store_ok store_abc (dict_values (nodes manifest_abc)))
    by (apply (bool_decide_unpack _); vm_compute; reflexivity).
  split; [exact H1|].
  exact (@serialize_repeatable key_serializer manifest_abc store_abc H1).
Defined.

(** ** find_docs_by_name *)

Lemma doc_matches_two_segments name package unique_id :
  doc_matches name package unique_id → two_segments unique_id.
Proof. intros (p & n & E & _). unfold two_segments. by rewrite E. Qed.

Lemma find_docs_loop_malformed unique_id doc rest name package :
  ¬ two_segments unique_id →
  find_docs_loop ((unique_id, doc) :: rest) name package
    = Raise (CompilationException doc_name_msg doc).
Proof.
  intros Hbad. cbn [find_docs_loop]. by case_decide.
Qed.

Lemma find_docs_loop_match unique_id doc rest name package :
  doc_matches name package unique_id →
  find_docs_loop ((unique_id, doc) :: rest) name package = Ok (Some doc).
Proof.
  intros (p & n & E & Hn & Hp). cbn [find_docs_loop]. rewrite E.
  case_decide as Hlen; [done|]. case_decide as Hno; [done|].
  exfalso. apply Hno. split; [done|].
  destruct Hp as [->| ->]; [left | right; left].
Qed.

Lemma find_docs_loop_pass unique_id doc rest name package :
  passed_over name package (unique_id, doc) →
  find_docs_loop ((unique_id, doc) :: rest) name package
    = find_docs_loop rest name package.
Proof.
  intros [Htwo Hno]. cbn [find_docs_loop]. unfold two_segments in Htwo.
  simpl in Htwo. case_decide as Hlen; [done|].
  destruct (split "." unique_id) as [|p [|n [|]]] eqn:E; try done.
  case_decide as Hyes; [|done]. exfalso. destruct Hyes as [Hn Hp]. apply Hno.
  exists p, n. split; [done|]. split; [done|].
  apply elem_of_cons in Hp as [->|Hp]; [by left|].
  apply elem_of_cons in Hp as [->|Hp]; [by right|]. by apply elem_of_nil in Hp.
Qed.

Lemma find_docs_loop_app pre post name package :
  Forall (passed_over name package) pre →
  find_docs_loop (pre ++ post) name package = find_docs_loop post name package.
Proof.
  induction pre as [|[unique_id doc] pre IH]; intros Hall; [done|].
  apply Forall_cons in Hall as [Hpass Hall].
  rewrite <- app_comm_cons, find_docs_loop_pass by done. by apply IH.
Qed.

Lemma find_docs_loop_scan items name package :
  scan_end name package items (find_docs_loop items name package).
Proof.
  induction items as [|[unique_id doc] rest IH].
  - by apply scan_none.
  - destruct (decide (two_segments unique_id)) as [Htwo|Hbad].
    + assert (Hm : Decision (doc_matches name package unique_id)).
      { unfold two_segments in Htwo.
        destruct (split "." unique_id) as [|p [|n [|]]] eqn:E; try done.
        destruct (decide (name = n ∧ (package = None ∨ package = Some p)))
          as [[Hn Hp]|Hno].
        - left. by exists p, n.
        - right. intros (p' & n' & E' & Hn & Hp). rewrite E in E'.
          injection E' as <- <-. by apply Hno. }
      destruct Hm as [Hyes|Hno].
      * rewrite find_docs_loop_match by done. by apply (scan_found _ _ []).
      * rewrite find_docs_loop_pass by done.
        inversion IH as [items Hall Hitems Hres
                        | pre k d post Hall Hk Hitems Hres
                        | pre k d post Hall Hk Hitems Hres].
        -- apply scan_none. by constructor.
        -- apply (scan_found _ _ ((unique_id, doc) :: pre)); [|done].
           by constructor.
        -- apply (scan_malformed _ _ ((unique_id, doc) :: pre)); [|done].
           by constructor.
    + rewrite find_docs_loop_malformed by done. by apply (scan_malformed _ _ []).
Qed.

Lemma find_docs_scan_to items i unique_id doc name package :
  items !! i = Some (unique_id, doc) →
  (∀ j item, j < i → items !! j = Some item → passed_over name package item) →
  find_docs_loop items name package
    = find_docs_loop ((unique_id, doc) :: drop (S i) items) name package.
Proof.
  intros Hi Hbefore. rewrite <- (take_drop_middle items i (unique_id, doc)) at 1 by done.
  apply find_docs_loop_app. apply Forall_lookup. intros j item Hj.
  apply lookup_take_Some in Hj as [Hj Hlt]. eauto.
Qed.

(** C4: in a manifest whose doc keys all split into exactly two segments,
    [find_docs_by_name] returns the first doc, in the order of the doc
    mapping, whose key splits into a package and a name that match; when
    no key matches it returns [None], and raises nothing. *)
Theorem find_docs_by_name_first self name package :
  Forall (λ item, two_segments item.1) (docs self) →
  (∀ i unique_id doc,
     docs self !! i = Some (unique_id, doc) →
     doc_matches name package unique_id →
     (∀ j item, j < i → docs self !! j = Some item →
                ¬ doc_matches name package item.1) →
     find_docs_by_name self name package = Ok (Some doc)) ∧
  ((∀ item, item ∈ docs self → ¬ doc_matches name package item.1) →
   find_docs_by_name self name package = Ok None).
Proof.
  intros Hwf. unfold find_docs_by_name. split.
  - intros i unique_id doc Hi Hmatch Hfirst.
    assert (Hbefore : ∀ j item, j < i → docs self !! j = Some item →
                        passed_over name package item).
    { intros j item Hj Hitem. split; [|by eapply Hfirst].
      by eapply (proj1 (Forall_lookup _ _) Hwf). }
    rewrite (find_docs_scan_to _ i unique_id doc) by done.
    by apply find_docs_loop_match.
  - intros Hnone.
    rewrite <- (app_nil_r (docs self)), find_docs_loop_app; [done|].
    apply Forall_forall. intros item Hitem. split; [|by apply Hnone].
    by apply (proj1 (Forall_forall _ _) Hwf).
Qed.

Example find_docs_by_name_package doc :
  find_docs_by_name (docs_overview doc) "overview" (Some "pkg1") = Ok (Some doc).
Proof. reflexivity. Qed.

Example find_docs_by_name_other_package doc :
  find_docs_by_name (docs_overview doc) "overview" (Some "pkg2") = Ok None.
Proof. reflexivity. Qed.

Example find_docs_by_name_any_package doc :
  find_docs_by_name (docs_overview doc) "overview" None = Ok (Some doc).
Proof. reflexivity. Qed.

Lemma find_docs_by_name_first_witness :
  Forall (λ item, two_segments item.1) (docs (docs_overview overview_doc)) ∧
  find_docs_by_name (docs_overview overview_doc) "overview" (Some "pkg1")
    = Ok (Some overview_doc) ∧
  find_docs_by_name (docs_overview overview_doc) "overview" (Some "pkg2") = Ok None ∧
  find_docs_by_name (docs_overview overview_doc) "overview" None
    = Ok (Some overview_doc).
Proof.
  assert (Hwf : Forall (λ item, two_segments item.1)
                       (docs (docs_overview overview_doc)))
    by (by repeat constructor).
  assert (Hno : ∀ p, p ≠ "pkg1" →
            ∀ item, item ∈ docs (docs_overview overview_doc) →
                    ¬ doc_matches "overview" (Some p) item.1).
  { intros p Hp item ->%list_elem_of_singleton (p' & n' & E & _ & Hp').
    vm_compute in E. injection E as <- <-. by destruct Hp' as [|[= ->]]. }
  split; [exact Hwf|]. split; [|split].
  - apply (proj1 (find_docs_by_name_first _ "overview" (Some "pkg1") Hwf) 0
             "pkg1.overview"); [done | | intros; lia].
    exists "pkg1", "overview". auto.
  - by apply (proj2 (find_docs_by_name_first _ "overview" (Some "pkg2") Hwf)), Hno.
  - apply (proj1 (find_docs_by_name_first _ "overview" None Hwf) 0
             "pkg1.overview"); [done | | intros; lia].
    exists "pkg1", "overview". auto.
Defined.

(** C5, as the code has it: in a manifest with a doc whose key does not
    split into exactly two segments, take the first such doc in the order
    of the doc mapping.  When no doc before it matches, the lookup fails
    with the compilation error naming it; when a doc before it matches,
    the lookup returns the first doc that matches and raises nothing. *)
Theorem find_docs_by_name_malformed self name package i unique_id doc :
  docs self !! i = Some (unique_id, doc) →
  ¬ two_segments unique_id →
  (∀ j item, j < i → docs self !! j = Some item → two_segments item.1) →
  ((∀ j item, j < i → docs self !! j = Some item →
              ¬ doc_matches name package item.1) →
   find_docs_by_name self name package
     = Raise (CompilationException doc_name_msg doc)) ∧
  (∀ j unique_id' doc',
     j < i →
     docs self !! j = Some (unique_id', doc') →
     doc_matches name package unique_id' →
     (∀ j' item, j' < j → docs self !! j' = Some item →
                 ¬ doc_matches name package item.1) →
     find_docs_by_name self name package = Ok (Some doc')).
Proof.
  intros Hi Hbad Hwf. unfold find_docs_by_name. split.
  - intros Hnone.
    rewrite (find_docs_scan_to _ i unique_id doc); [by apply find_docs_loop_malformed | done |].
    intros j item Hj Hitem. split; eauto.
  - intros j unique_id' doc' Hj Hitem Hmatch Hfirst.
    rewrite (find_docs_scan_to _ j unique_id' doc'); [by apply find_docs_loop_match | done |].
    intros j' item Hj' Hitem'. split; [|by eauto].
    apply (Hwf j'); [lia | done].
Qed.

Lemma find_docs_by_name_malformed_witness :
  docs docs_mixed !! 1 = Some ("a.b.c", malformed_doc) ∧
  length (split "." "a.b.c") = 3 ∧
  find_docs_by_name docs_mixed "summary" None
    = Raise (CompilationException doc_name_msg malformed_doc) ∧
  find_docs_by_name docs_mixed "overview" (Some "pkg1") = Ok (Some overview_doc).
Proof.
  assert (Hi : docs docs_mixed !! 1 = Some ("a.b.c", malformed_doc)) by reflexivity.
  assert (Hbad : ¬ two_segments "a.b.c") by (unfold two_segments; vm_compute; lia).
  assert (Hwf : ∀ j item, j < 1 → docs docs_mixed !! j = Some item →
                          two_segments item.1).
  { intros [|j] item Hj Hitem; [|lia]. injection Hitem as <-. reflexivity. }
  split; [exact Hi|]. split; [reflexivity|]. split.
  - apply (proj1 (find_docs_by_name_malformed docs_mixed "summary" None 1
                    "a.b.c" malformed_doc Hi Hbad Hwf)).
    intros [|j] item Hj Hitem; [|lia]. injection Hitem as <-.
    intros (p & n & E & Hn & _). vm_compute in E. injection E as <- <-.
    discriminate Hn.
  - apply (proj2 (find_docs_by_name_malformed docs_mixed "overview" (Some "pkg1") 1
                    "a.b.c" malformed_doc Hi Hbad Hwf) 0 "pkg1.overview").
    + lia.
    + reflexivity.
    + exists "pkg1", "overview". auto.
    + intros j' item Hj'. lia.
Defined.

(** A malformed key before the match: the lookup raises for it, though
    [pkg1.overview] matches and comes before [a.b.c]. *)
Example find_docs_by_name_malformed_first :
  find_docs_by_name
    (mkManifest [] [] [("x.y.z", mkDoc "x.y.z" "A block");
                       ("pkg1.overview", overview_doc);
                       ("a.b.c", malformed_doc)] "")
    "overview" (Some "pkg1")
  = Raise (CompilationException doc_name_msg (mkDoc "x.y.z" "A block")).
Proof. reflexivity. Qed.

(** The claim fails on this manifest: it has a doc whose key has three
    segments, and the lookup of [overview] in [pkg1] returns the doc
    before it without an error. *)
Lemma find_docs_by_name_malformed_unnoticed :
  ("a.b.c", malformed_doc) ∈ docs docs_mixed ∧
  length (split "." "a.b.c") = 3 ∧
  find_docs_by_name docs_mixed "overview" (Some "pkg1") = Ok (Some overview_doc).
Proof.
  split; [right; left|]. split; reflexivity.
Qed.

(** C9: the segment count of a key is only checked when the scan reaches
    it.  A doc that matches, with every doc before it passed over, is
    returned whatever the keys after it are; and when the lookup raises,
    it is for a doc whose key is malformed and that the scan reached
    before any match. *)
Theorem find_docs_by_name_lazy self name package :
  (∀ pre unique_id doc post,
     docs self = pre ++ (unique_id, doc) :: post →
     Forall (passed_over name package) pre →
     doc_matches name package unique_id →
     find_docs_by_name self name package = Ok (Some doc)) ∧
  (∀ e, find_docs_by_name self name package = Raise e →
     ∃ pre unique_id doc post,
       docs self = pre ++ (unique_id, doc) :: post ∧
       Forall (passed_over name package) pre ∧
       ¬ two_segments unique_id ∧
       e = CompilationException doc_name_msg doc).
Proof.
  unfold find_docs_by_name. split.
  - intros pre unique_id doc post -> Hpre Hmatch.
    rewrite find_docs_loop_app by done. by apply find_docs_loop_match.
  - intros e He.
    pose proof (find_docs_loop_scan (docs self) name package) as Hscan.
    rewrite He in Hscan.
    inversion Hscan as [| | pre unique_id doc post Hpre Hbad Hitems Hres].
    exists pre, unique_id, doc, post. done.
Qed.

(** In [docs_mixed] the doc before [a.b.c] matches and is returned. *)
Lemma find_docs_by_name_lazy_witness :
  (∃ item, item ∈ docs docs_mixed ∧ ¬ two_segments item.1) ∧
  find_docs_by_name docs_mixed "overview" (Some "pkg1") = Ok (Some overview_doc).
Proof.
  split.
  - exists ("a.b.c", malformed_doc). split; [right; left|].
    unfold two_segments. vm_compute. lia.
  - apply (proj1 (find_docs_by_name_lazy docs_mixed "overview" (Some "pkg1"))
             [] "pkg1.overview" overview_doc [("a.b.c", malformed_doc)]).
    + reflexivity.
    + constructor.
    + exists "pkg1", "overview". auto.
Defined.

(** ** get_materialization_macro *)

Lemma find_macro_by_name_run `{Utils} self name package looked_up :
  find_macro_by_name self name package looked_up =
    (Ok (find_in_subgraph_by_name (prod_map id EMacro <$> macros self)
           name package [Macro]),
     looked_up ++ [mkLookup name package [Macro]]).
Proof. reflexivity. Qed.

(** C6: [get_materialization_macro] looks up, with no package, the name
    made of the materialization and the adapter type.  When that lookup
    finds nothing and the adapter type is neither unset nor [default], it
    does one more lookup, of the name made with the [default] adapter, and
    returns its result; otherwise it returns the result of the single
    lookup.  The lookups done are the ones appended to [looked_up]. *)
Theorem get_materialization_macro_lookups `{Utils} self materialization_name
    adapter_type looked_up :
  let search := prod_map id EMacro <$> macros self in
  let name1 := get_materialization_macro_name materialization_name adapter_type false in
  let name2 :=
    get_materialization_macro_name materialization_name (Some "default") false in
  get_materialization_macro self materialization_name adapter_type looked_up =
    match find_in_subgraph_by_name search name1 None [Macro] with
    | Some macro => (Ok (Some macro), looked_up ++ [mkLookup name1 None [Macro]])
    | None =>
        if decide (adapter_type = None ∨ adapter_type = Some "default") then
          (Ok None, looked_up ++ [mkLookup name1 None [Macro]])
        else
          (Ok (find_in_subgraph_by_name search name2 None [Macro]),
           looked_up ++ [mkLookup name1 None [Macro]; mkLookup name2 None [Macro]])
    end.
Proof.
  intros search name1 name2. unfold get_materialization_macro.
  erewrite bind_ok by apply find_macro_by_name_run. fold search name1 name2.
  destruct (find_in_subgraph_by_name search name1 None [Macro]) as [macro|].
  - rewrite decide_False; [done|]. by intros [_ ?].
  - destruct (decide (adapter_type = None ∨ adapter_type = Some "default"))
      as [Hdefault|Hother].
    + rewrite decide_False; [done|]. intros [Hnot _]. apply Hnot.
      destruct Hdefault as [->| ->]; [right; left | left].
    + rewrite decide_True.
      * erewrite bind_ok by apply find_macro_by_name_run.
        fold search name2. unfold mret, M_ret. by rewrite <- app_assoc.
      * split; [|done]. intros [->|[->|[]%elem_of_nil]%elem_of_cons]%elem_of_cons;
          apply Hother; auto.
Qed.

(** Only the default-adapter macro exists: the lookup for snowflake falls
    back to it, in two lookups. *)
Example get_materialization_macro_fallback :
  @get_materialization_macro sample_utils only_default "table" (Some "snowflake") []
  = (Ok (Some (EMacro table_default)),
     [ mkLookup "materialization_table_snowflake" None [Macro];
       mkLookup "materialization_table_default" None [Macro] ]).
Proof. reflexivity. Qed.

(** No adapter type: one lookup, found or not. *)
Example get_materialization_macro_unset :
  @get_materialization_macro sample_utils only_default "view" None []
  = (Ok None, [ mkLookup "materialization_view_default" None [Macro] ]).
Proof. reflexivity. Qed.

Example get_materialization_macro_default :
  @get_materialization_macro sample_utils only_default "view" (Some "default") []
  = (Ok None, [ mkLookup "materialization_view_default" None [Macro] ]).
Proof. reflexivity. Qed.

(** The second lookup is the last one: nothing is tried after it. *)
Example get_materialization_macro_no_third :
  @get_materialization_macro sample_utils only_default "view" (Some "snowflake") []
  = (Ok None,
     [ mkLookup "materialization_view_snowflake" None [Macro];
       mkLookup "materialization_view_default" None [Macro] ]).
Proof. reflexivity. Qed.

(** ** Dictionaries *)

Lemma dict_get_None {V} (d : dict V) k : dict_get k d = None ↔ k ∉ d.*1.
Proof.
  induction d as [|[k' v] d IH].
  - split; [intros _; apply not_elem_of_nil | done].
  - cbn [dict_get]. rewrite fmap_cons, not_elem_of_cons. cbn [fst].
    case_decide as Hk.
    + split; [done|]. by intros [Hne _].
    + rewrite IH. split; [intros ?; split; [by intros ->|done] | by intros [_ ?]].
Qed.

Lemma dict_get_Some_elem {V} (d : dict V) k v : dict_get k d = Some v → (k, v) ∈ d.
Proof.
  induction d as [|[k' v'] d IH]; simpl; [done|].
  case_decide as Hk; [subst|].
  - intros [= ->]. left.
  - intros Hget. right. auto.
Qed.

Lemma dict_get_app {V} (d1 d2 : dict V) k :
  dict_get k (d1 ++ d2) =
    match dict_get k d1 with Some v => Some v | None => dict_get k d2 end.
Proof.
  induction d1 as [|[k' v] d1 IH]; simpl; [done|]. by case_decide.
Qed.

Lemma dict_set_fresh {V} (d : dict V) k v :
  dict_get k d = None → dict_set k v d = d ++ [(k, v)].
Proof.
  induction d as [|[k' v'] d IH]; simpl; [done|].
  case_decide as Hk; [done|]. intros Hget. by rewrite IH.
Qed.

Lemma filter_all {A} (P : A → Prop) `{∀ x, Decision (P x)} (l : list A) :
  Forall P l → filter P l = l.
Proof.
  induction 1 as [|x l Hx _ IH]; [done|]. by rewrite filter_cons_True, IH.
Qed.

(** In a well-formed dictionary, [pop] takes the entry of the key out. *)
Lemma dict_pop_spec {V} (d : dict V) k :
  dict_wf d →
  dict_pop k d = (dict_get k d, filter (λ item, item.1 ≠ k) d).
Proof.
  unfold dict_wf. induction d as [|[k' v] d IH]; [done|].
  rewrite fmap_cons. intros [Hnotin Hnd]%NoDup_cons. cbn [dict_pop dict_get].
  case_decide as Hk.
  - cbn [fst] in Hk. subst k'. rewrite filter_cons_False by (simpl; auto).
    rewrite filter_all; [done|]. apply Forall_forall. intros [k' v'] Hin.
    simpl. intros ->. apply Hnotin. by apply (list_elem_of_fmap_2 fst) in Hin.
  - rewrite IH by done. by rewrite filter_cons_True.
Qed.

Lemma dict_wf_filter {V} (P : string * V → Prop) `{∀ x, Decision (P x)} (d : dict V) :
  dict_wf d → dict_wf (filter P d).
Proof.
  unfold dict_wf. induction d as [|[k v] d IH]; [done|].
  rewrite fmap_cons. intros [Hnotin Hnd]%NoDup_cons.
  destruct (decide (P (k, v))) as [Hp|Hp].
  - rewrite filter_cons_True by done. rewrite fmap_cons. apply NoDup_cons.
    split; [|auto]. intros Hin. apply Hnotin.
    apply list_elem_of_fmap in Hin as (item & -> & Hitem).
    apply list_elem_of_filter in Hitem as [_ Hitem].
    by apply list_elem_of_fmap_2.
  - rewrite filter_cons_False by done. auto.
Qed.

Lemma dict_get_filter_ne {V} (d : dict V) k k' :
  k ≠ k' → dict_get k (filter (λ item, item.1 ≠ k') d) = dict_get k d.
Proof.
  intros Hne. induction d as [|[k0 v] d IH]; [done|].
  destruct (decide (k0 = k')) as [->|Hk0].
  - rewrite filter_cons_False by (simpl; auto). simpl.
    rewrite decide_False by done. done.
  - rewrite filter_cons_True by done. simpl. by rewrite IH.
Qed.

Lemma dict_get_filter_eq {V} (d : dict V) k :
  dict_get k (filter (λ item, item.1 ≠ k) d) = None.
Proof.
  apply dict_get_None. intros Hin.
  apply list_elem_of_fmap in Hin as (item & -> & Hitem).
  by apply list_elem_of_filter in Hitem as [Hne _].
Qed.

(** ** add_nodes *)

(** The name the collision branch calls is not bound by the module; the
    other names its functions read at the top level are. *)
Lemma raise_duplicate_resource_name_unbound :
  ("raise_duplicate_resource_name" ∉ module_globals) ∧
  Forall (λ name, name ∈ module_globals)
         (filter (λ name, name ≠ "raise_duplicate_resource_name") referenced_globals).
Proof. split; by apply (bool_decide_unpack _). Qed.

Lemma dict_contains_true {V} (d : dict V) k :
  dict_contains k d = true ↔ is_Some (dict_get k d).
Proof. unfold dict_contains. by rewrite bool_decide_eq_true. Qed.

Lemma dict_contains_false {V} (d : dict V) k :
  dict_contains k d = false ↔ dict_get k d = None.
Proof.
  unfold dict_contains. rewrite bool_decide_eq_false.
  by rewrite <- eq_None_not_Some.
Qed.

(** A key that is not in [self.nodes]: the node goes last. *)
Lemma add_node_fresh unique_id node self_nodes :
  dict_get unique_id self_nodes = None →
  add_node (unique_id, node) self_nodes = (Ok (), self_nodes ++ [(unique_id, node)]).
Proof.
  intros Hget. unfold add_node, mbind, M_bind, get, put. simpl.
  rewrite (proj2 (dict_contains_false _ _) Hget). simpl.
  by rewrite dict_set_fresh.
Qed.

(** A key that is in [self.nodes]: the read of the unbound name raises,
    and [self.nodes] stays as it is. *)
Lemma add_node_collision unique_id node self_nodes :
  is_Some (dict_get unique_id self_nodes) →
  add_node (unique_id, node) self_nodes
    = (Raise (NameError "raise_duplicate_resource_name"), self_nodes).
Proof.
  intros Hget. unfold add_node, mbind, M_bind, get. simpl.
  by rewrite (proj2 (dict_contains_true _ _) Hget).
Qed.

(** No key collides: every new node is inserted, in order, and nothing
    is raised. *)
Lemma add_nodes_fresh new_nodes : ∀ self_nodes,
  dict_wf new_nodes →
  (∀ k, k ∈ new_nodes.*1 → dict_get k self_nodes = None) →
  add_nodes new_nodes self_nodes = (Ok (), self_nodes ++ new_nodes).
Proof.
  unfold add_nodes, dict_wf.
  induction new_nodes as [|[k node] rest IH]; intros self_nodes Hwf Hfresh.
  - simpl. by rewrite app_nil_r.
  - rewrite fmap_cons in Hwf, Hfresh. apply NoDup_cons in Hwf as [Hk Hwf].
    rewrite for_each_cons, add_node_fresh by (apply Hfresh; left).
    rewrite IH; [by rewrite <- app_assoc | done |].
    intros k' Hk'. rewrite dict_get_app, (Hfresh k') by (by right).
    simpl. rewrite decide_False; [done|]. by intros ->.
Qed.

(** C7, as the code has it: [add_nodes] inserts the new nodes in order up
    to the first key that is already in the node mapping, and stops
    there, the earlier ones of the call staying inserted; what it raises
    there is [NameError], the name [raise_duplicate_resource_name] being
    bound nowhere in the module, and not an error that carries the two
    nodes. *)
Theorem add_nodes_collision_name_error pre unique_id node post self_nodes :
  dict_wf (pre ++ (unique_id, node) :: post) →
  (∀ k, k ∈ pre.*1 → dict_get k self_nodes = None) →
  is_Some (dict_get unique_id self_nodes) →
  add_nodes (pre ++ (unique_id, node) :: post) self_nodes
    = (Raise (NameError "raise_duplicate_resource_name"), self_nodes ++ pre).
Proof.
  unfold add_nodes, dict_wf. revert self_nodes.
  induction pre as [|[k n] pre IH]; intros self_nodes Hwf Hfresh Hcollide.
  - simpl app. rewrite for_each_cons, add_node_collision by done.
    by rewrite app_nil_r.
  - rewrite <- app_comm_cons, fmap_cons in Hwf.
    rewrite fmap_cons in Hfresh. apply NoDup_cons in Hwf as [Hk Hwf].
    rewrite <- app_comm_cons, for_each_cons, add_node_fresh by (apply Hfresh; left).
    rewrite IH; [by rewrite <- app_assoc | done | |].
    + intros k' Hk'. rewrite dict_get_app, (Hfresh k') by (by right).
      simpl. rewrite decide_False; [done|]. intros ->. apply Hk.
      rewrite fmap_app. apply elem_of_app. by left.
    + rewrite dict_get_app. by destruct Hcollide as [existing ->].
Qed.

Lemma add_nodes_collision_name_error_witness :
  add_nodes [("model.shop.orders", orders); ("model.shop.customers", customers_again)]
            [("model.shop.customers", customers)]
  = (Raise (NameError "raise_duplicate_resource_name"),
     [("model.shop.customers", customers); ("model.shop.orders", orders)]).
Proof.
  apply (add_nodes_collision_name_error
           [("model.shop.orders", orders)] "model.shop.customers" customers_again []
           [("model.shop.customers", customers)]).
  - apply (bool_decide_unpack _). vm_compute. reflexivity.
  - intros k ->%list_elem_of_singleton. reflexivity.
  - by eexists.
Defined.

Example add_nodes_no_collision :
  add_nodes [("model.shop.orders", orders)] [("model.shop.customers", customers)]
  = (Ok (), [("model.shop.customers", customers); ("model.shop.orders", orders)]).
Proof. reflexivity. Qed.

(** ** patch_nodes *)

Lemma model_names_cons_model unique_id node rest :
  resource_type node = Model →
  model_names ((unique_id, node) :: rest) = name node :: model_names rest.
Proof.
  intros Hmodel. unfold model_names, dict_values. rewrite fmap_cons.
  by rewrite filter_cons_True.
Qed.

Lemma model_names_cons_other unique_id node rest :
  resource_type node ≠ Model →
  model_names ((unique_id, node) :: rest) = model_names rest.
Proof.
  intros Hother. unfold model_names, dict_values. rewrite fmap_cons.
  by rewrite filter_cons_False.
Qed.

Lemma patched_after_other `{Patching} patches unique_id other earlier node :
  resource_type other ≠ Model →
  patched patches ((unique_id, other) :: earlier) node = patched patches earlier node.
Proof. intros Hother. unfold patched. by rewrite model_names_cons_other. Qed.

(** After a model has taken the patch of its name out, the later nodes see
    what they would have seen after it. *)
Lemma patched_after_model `{Patching} patches unique_id model earlier node :
  resource_type model = Model →
  patched (filter (λ item, item.1 ≠ name model) patches) earlier node
    = patched patches ((unique_id, model) :: earlier) node.
Proof.
  intros Hmodel. unfold patched. rewrite model_names_cons_model by done.
  destruct (decide (name node = name model)) as [Hsame|Hdiff].
  - rewrite Hsame, dict_get_filter_eq.
    rewrite (decide_False (P := _ ∧ name model ∉ name model :: _)).
    + by case_decide.
    + intros [_ Hnot]. apply Hnot. left.
  - rewrite dict_get_filter_ne by done. apply decide_ext.
    rewrite not_elem_of_cons. tauto.
Qed.

Lemma filter_model_names {V} (patches : dict V) unique_id node rest :
  resource_type node = Model →
  filter (λ item, item.1 ∉ model_names rest)
         (filter (λ item, item.1 ≠ name node) patches)
  = filter (λ item : string * V, item.1 ∉ model_names ((unique_id, node) :: rest))
           patches.
Proof.
  intros Hmodel. rewrite list_filter_filter. apply list_filter_iff.
  intros item. rewrite model_names_cons_model, not_elem_of_cons by done.
  tauto.
Qed.

(** The scan, node by node. *)
Lemma patch_scan_spec `{Patching} self_nodes : ∀ patches,
  dict_wf patches →
  ∃ nodes',
    patch_scan self_nodes patches
      = (nodes', filter (λ item, item.1 ∉ model_names self_nodes) patches) ∧
    nodes'.*1 = self_nodes.*1 ∧
    ∀ i unique_id node,
      self_nodes !! i = Some (unique_id, node) →
      nodes' !! i = Some (unique_id, patched patches (take i self_nodes) node).
Proof.
  induction self_nodes as [|[k n] rest IH]; intros patches Hwf.
  - exists []. split; [|done]. simpl. f_equal. symmetry. apply filter_all.
    apply Forall_forall. intros item _. apply not_elem_of_nil.
  - cbn [patch_scan]. destruct (decide (resource_type n = Model)) as [Hmodel|Hother].
    + rewrite decide_False by (by intros ?).
      rewrite dict_pop_spec by done.
      destruct (IH (filter (λ item, item.1 ≠ name n) patches))
        as (rest' & E & Hkeys & Hnodes); [by apply dict_wf_filter|].
      rewrite filter_model_names with (unique_id := k) in E by done.
      exists ((k, patched patches [] n) :: rest').
      split; [|split].
      * unfold patched. rewrite decide_True by (split; [done | apply not_elem_of_nil]).
        destruct (dict_get (name n) patches) as [patch|]; [|by rewrite E].
        destruct (patch_truthy patch); simpl; by rewrite E.
      * rewrite !fmap_cons. by rewrite Hkeys.
      * intros [|i] unique_id node Hi.
        -- by injection Hi as <- <-.
        -- simpl in Hi. simpl. rewrite (Hnodes _ _ _ Hi).
           by rewrite (patched_after_model _ k).
    + rewrite decide_True by done.
      destruct (IH patches Hwf) as (rest' & E & Hkeys & Hnodes). rewrite E.
      exists ((k, n) :: rest'). split; [|split].
      * by rewrite (model_names_cons_other k).
      * rewrite !fmap_cons. by rewrite Hkeys.
      * intros [|i] unique_id node Hi.
        -- injection Hi as <- <-. simpl. unfold patched.
           rewrite decide_False; [done|]. by intros [? _].
        -- simpl in Hi. simpl. rewrite (Hnodes _ _ _ Hi).
           by rewrite patched_after_other.
Qed.

Lemma patch_nodes_run `{Patching} self patches nodes' patches' :
  patch_scan (nodes self) patches = (nodes', patches') →
  patch_nodes self patches
    = (mkManifest nodes' (macros self) (docs self) (generated_at self),
       patches', patch_warning <$> dict_values patches').
Proof.
  intros E. unfold patch_nodes. rewrite E. f_equal.
  case_decide as Hempty; [done|]. by rewrite Hempty.
Qed.

(** C8: [patch_nodes] leaves every node in its place under its key.  A
    node of resource type [Model] that is the first model of its name gets
    the patch keyed by that name, when there is one; every other node is
    left as it is.  The patches left are those whose key is the name of no
    model of the manifest, and each of them is logged once, by one line;
    nothing is raised.  The patches are the values of a dictionary, and
    each is true in the sense of [not patch]. *)
Theorem patch_nodes_scan `{Patching} self patches :
  dict_wf patches →
  Forall (λ item, patch_truthy item.2) patches →
  ∃ self' patches' logged,
    patch_nodes self patches = (self', patches', logged) ∧
    (nodes self').*1 = (nodes self).*1 ∧
    (∀ i unique_id node,
       nodes self !! i = Some (unique_id, node) →
       nodes self' !! i =
         Some (unique_id,
               if decide (resource_type node = Model ∧
                          name node ∉ model_names (take i (nodes self)))
               then from_option (node_patch node) node (dict_get (name node) patches)
               else node)) ∧
    macros self' = macros self ∧ docs self' = docs self ∧
    generated_at self' = generated_at self ∧
    patches' = filter (λ item, item.1 ∉ model_names (nodes self)) patches ∧
    logged = patch_warning <$> dict_values patches' ∧
    length logged = length patches'.
Proof.
  intros Hwf Htrue.
  destruct (patch_scan_spec (nodes self) patches Hwf) as (nodes' & E & Hkeys & Hnodes).
  eexists _, _, _. split; [by apply patch_nodes_run|]. simpl.
  split; [done|]. split; [|repeat (split; [done|])].
  - intros i unique_id node Hi. rewrite (Hnodes _ _ _ Hi). unfold patched.
    case_decide; [|done].
    destruct (dict_get (name node) patches) as [patch|] eqn:Hget; [|done].
    apply dict_get_Some_elem in Hget.
    rewrite Forall_forall in Htrue. specialize (Htrue _ Hget). simpl in Htrue.
    by destruct (patch_truthy patch).
  - unfold dict_values. by rewrite !length_fmap.
Qed.

(** C10: of two models of the same name, only the first in the order of
    the node mapping gets the patch of that name: the entry is taken out
    when the first is reached, so the later one is left as it is; no
    entry of that name is left, so no line is logged for it. *)
Theorem patch_nodes_first_of_name `{Patching} self patches i j ki kj first later patch :
  dict_wf patches →
  nodes self !! i = Some (ki, first) →
  nodes self !! j = Some (kj, later) →
  i < j →
  resource_type first = Model → resource_type later = Model →
  name first = name later →
  name first ∉ model_names (take i (nodes self)) →
  dict_get (name first) patches = Some patch →
  patch_truthy patch →
  ∃ self' patches' logged,
    patch_nodes self patches = (self', patches', logged) ∧
    nodes self' !! i = Some (ki, node_patch first patch) ∧
    nodes self' !! j = Some (kj, later) ∧
    (name later ∉ patches'.*1) ∧
    logged = patch_warning <$> dict_values patches'.
Proof.
  intros Hwf Hi Hj Hlt Hmi Hmj Hname Hfirst Hget Htrue.
  destruct (patch_scan_spec (nodes self) patches Hwf) as (nodes' & E & Hkeys & Hnodes).
  eexists _, _, _. split; [by apply patch_nodes_run|]. simpl.
  split; [|split; [|split; [|done]]].
  - rewrite (Hnodes _ _ _ Hi). unfold patched. rewrite decide_True by done.
    rewrite Hget. by destruct (patch_truthy patch).
  - rewrite (Hnodes _ _ _ Hj). unfold patched. rewrite decide_False; [done|].
    intros [_ Hnot]. apply Hnot. rewrite <- Hname. unfold model_names, dict_values.
    apply list_elem_of_fmap. exists first. split; [done|].
    apply list_elem_of_filter. split; [done|].
    apply list_elem_of_fmap. exists (ki, first). split; [done|].
    apply list_elem_of_lookup. exists i. apply lookup_take_Some. done.
  - intros Hin. apply list_elem_of_fmap in Hin as (item & Hitem & Hin).
    apply list_elem_of_filter in Hin as [Hnot _]. apply Hnot.
    rewrite <- Hitem, <- Hname. unfold model_names, dict_values.
    apply list_elem_of_fmap. exists first. split; [done|].
    apply list_elem_of_filter. split; [done|].
    apply list_elem_of_fmap. exists (ki, first). split; [done|].
    apply list_elem_of_lookup. eauto.
Qed.

(** The patch of [customers] is applied and nothing is left or logged. *)
Example patch_nodes_customers :
  @patch_nodes content_patching shop [("customers", customers_patch)]
  = (mkManifest [("model.shop.customers", customers_patched);
                 ("model.shop.orders", orders)] [] [] "",
     [], []).
Proof. reflexivity. Qed.

(** A patch for a model that is not there stays, is logged once, and no
    node changes. *)
Example patch_nodes_unmatched :
  @patch_nodes content_patching shop [("payments", payments_patch)]
  = (shop, [("payments", payments_patch)],
     ["WARNING: Found documentation for model " +:+ dquote +:+ "payments" +:+
      dquote +:+ " which was not found or is disabled"]).
Proof. reflexivity. Qed.

(** A patch that is false for [not patch] is taken out of the patches,
    not applied and not logged. *)
Example patch_nodes_empty_patch :
  @patch_nodes content_patching shop [("customers", [])] = (shop, [], []).
Proof. reflexivity. Qed.

Lemma patch_nodes_scan_witness :
  let patches := [("customers", customers_patch); ("payments", payments_patch)] in
  dict_wf patches ∧
  Forall (λ item, @patch_truthy content_patching item.2) patches ∧
  ∃ self' patches' logged,
    @patch_nodes content_patching shop patches = (self', patches', logged) ∧
    (nodes self').*1 = (nodes shop).*1 ∧
    (∀ i unique_id node,
       nodes shop !! i = Some (unique_id, node) →
       nodes self' !! i =
         Some (unique_id,
               if decide (resource_type node = Model ∧
                          name node ∉ model_names (take i (nodes shop)))
               then from_option (@node_patch content_patching node) node
                                (dict_get (name node) patches)
               else node)) ∧
    macros self' = macros shop ∧ docs self' = docs shop ∧
    generated_at self' = generated_at shop ∧
    patches' = filter (λ item, item.1 ∉ model_names (nodes shop)) patches ∧
    logged = @patch_warning content_patching <$> dict_values patches' ∧
    length logged = length patches'.
Proof.
  intros patches.
  assert (H1 : dict_wf patches)
    by (apply (bool_decide_unpack _); vm_compute; reflexivity).
  assert (H2 : Forall (λ item, @patch_truthy content_patching item.2) patches)
    by (repeat constructor).
  split; [exact H1|]. split; [exact H2|].
  exact (@patch_nodes_scan content_patching shop patches H1 H2).
Defined.

Example patch_nodes_two_packages :
  @patch_nodes content_patching two_packages [("customers", customers_patch)]
  = (mkManifest [("model.shop.customers", customers_patched);
                 ("model.crm.customers", customers_crm)] [] [] "",
     [], []).
Proof. reflexivity. Qed.

Lemma patch_nodes_first_of_name_witness :
  let patches := [("customers", customers_patch)] in
  ∃ self' patches' logged,
    @patch_nodes content_patching two_packages patches = (self', patches', logged) ∧
    nodes self' !! 0
      = Some ("model.shop.customers",
              @node_patch content_patching customers customers_patch) ∧
    nodes self' !! 1 = Some ("model.crm.customers", customers_crm) ∧
    (name customers_crm ∉ patches'.*1) ∧
    logged = @patch_warning content_patching <$> dict_values patches'.
Proof.
  intros patches.
  apply (@patch_nodes_first_of_name content_patching two_packages patches 0 1
           "model.shop.customers" "model.crm.customers" customers customers_crm
           customers_patch).
  - apply (bool_decide_unpack _). vm_compute. reflexivity.
  - reflexivity.
  - reflexivity.
  - lia.
  - reflexivity.
  - reflexivity.
  - reflexivity.
  - apply not_elem_of_nil.
  - reflexivity.
  - exact I.
Defined.

(** * Further properties *)

(** ** build_edges: errors, keys and new lists *)

Lemma append_values_keys node_id deps : ∀ F F',
  append_values F node_id deps = Ok F' →
  ∀ k, is_Some (F' !! k) ↔ is_Some (F !! k).
Proof.
  induction deps as [|d rest IH]; intros F F' E k; simpl in E.
  - by injection E as <-.
  - destruct (F !! d) as [v|] eqn:Hd; [|done].
    rewrite (IH _ _ E). destruct (decide (d = k)) as [<-|Hne].
    + rewrite lookup_insert_eq, Hd. split; eauto.
    + by rewrite lookup_insert_ne.
Qed.

(** The first dependency without a forward entry stops the appends. *)
Lemma append_values_key_error F node_id known d rest :
  Forall (λ x, is_Some (F !! x)) known →
  F !! d = None →
  append_values F node_id (known ++ d :: rest) = Raise (KeyError d).
Proof.
  revert F. induction known as [|x known IH]; intros F Hknown Hd; simpl.
  - by rewrite Hd.
  - apply Forall_cons in Hknown as [[v Hx] Hknown]. rewrite Hx. apply IH.
    + eapply Forall_impl; [exact Hknown|]. intros y Hy. simpl.
      destruct (decide (x = y)) as [<-|Hne].
      * rewrite lookup_insert_eq. eauto.
      * by rewrite lookup_insert_ne.
    + rewrite lookup_insert_ne; [done|]. intros ->. congruence.
Qed.

Lemma edges_values_loop_app pre post : ∀ F B,
  edges_values_loop (pre ++ post) F B =
    match edges_values_loop pre F B with
    | Ok (F', B') => edges_values_loop post F' B'
    | Raise e => Raise e
    end.
Proof.
  induction pre as [|[u ds] pre IH]; intros F B; [done|].
  rewrite <- app_comm_cons. cbn [edges_values_loop].
  destruct (append_values F u ds) as [F1|e]; [apply IH | done].
Qed.

Lemma edges_values_loop_keys ns : ∀ F B F' B',
  edges_values_loop ns F B = Ok (F', B') →
  (∀ k, is_Some (F' !! k) ↔ is_Some (F !! k)) ∧
  (∀ k, is_Some (B' !! k) ↔ is_Some (B !! k) ∨ k ∈ ns.*1).
Proof.
  induction ns as [|[u ds] rest IH]; intros F B F' B' E; cbn [edges_values_loop] in E.
  - injection E as <- <-. split; [done|]. intros k. rewrite fmap_nil, elem_of_nil. tauto.
  - destruct (append_values F u ds) as [F1|e] eqn:E1; [|done].
    destruct (IH _ _ _ _ E) as [HF HB]. split.
    + intros k. rewrite HF. by apply (append_values_keys u ds).
    + intros k. rewrite HB, fmap_cons, elem_of_cons. cbn [fst].
      destruct (decide (u = k)) as [<-|Hne].
      * rewrite lookup_insert_eq. split; [auto|]. intros _. left. eauto.
      * rewrite lookup_insert_ne by done. split; [tauto|].
        intros [?|[->|?]]; tauto.
Qed.

Lemma forward_values_keys ns k :
  is_Some (forward_values ns ∅ !! k) ↔ k ∈ ns.*1.
Proof.
  rewrite forward_values_lookup. case_decide as Hk.
  - split; eauto.
  - rewrite lookup_empty. split; [by intros [? ?] | done].
Qed.

Lemma build_edges_values_keys ns F B :
  build_edges_values ns = Ok (F, B) →
  ∀ k, (is_Some (F !! k) ↔ k ∈ ns.*1) ∧ (is_Some (B !! k) ↔ k ∈ ns.*1).
Proof.
  unfold build_edges_values. intros E k.
  destruct (edges_values_loop_keys _ _ _ _ _ E) as [HF HB]. split.
  - rewrite HF. apply forward_values_keys.
  - rewrite HB, lookup_empty. split; [|auto]. by intros [[? ?]|?].
Qed.

Lemma build_edges_values_key_error pre u known d rest post :
  let ns := pre ++ (u, known ++ d :: rest) :: post in
  Forall (λ item, Forall (λ x, x ∈ ns.*1) item.2) pre →
  Forall (λ x, x ∈ ns.*1) known →
  d ∉ ns.*1 →
  build_edges_values ns = Raise (KeyError d).
Proof.
  intros ns Hpre Hknown Hd. unfold build_edges_values.
  set (F0 := forward_values ns ∅).
  unfold ns at 1. rewrite edges_values_loop_app.
  destruct (edges_values_loop_spec pre F0 ∅) as (F1 & B1 & E1 & HF1 & _).
  { intros u' ds' x Hin Hx. apply forward_values_keys.
    rewrite Forall_forall in Hpre. specialize (Hpre _ Hin). simpl in Hpre.
    rewrite Forall_forall in Hpre. by apply Hpre. }
  rewrite E1. cbn [edges_values_loop].
  rewrite append_values_key_error; [done | |].
  - eapply Forall_impl; [exact Hknown|]. intros x Hx. simpl.
    rewrite HF1. apply forward_values_keys in Hx as [v Hv].
    fold F0 in Hv. rewrite Hv. simpl. eauto.
  - rewrite HF1. destruct (F0 !! d) as [v|] eqn:Hv; [|done].
    exfalso. apply Hd. apply forward_values_keys. unfold F0 in Hv. eauto.
Qed.

(** The values of nodes of which one has a dependency that is no key. *)
Lemma node_values_key_error h pre node post known d rest :
  let nodes := pre ++ node :: post in
  Forall (λ n, Forall (λ x, x ∈ unique_id <$> nodes) (node_deps h n)) pre →
  node_deps h node = known ++ d :: rest →
  Forall (λ x, x ∈ unique_id <$> nodes) known →
  d ∉ unique_id <$> nodes →
  build_edges_values (node_value h <$> nodes) = Raise (KeyError d).
Proof.
  intros nodes Hpre Hdeps Hknown Hd.
  unfold nodes. rewrite fmap_app, fmap_cons. unfold node_value at 2.
  rewrite Hdeps.
  apply (build_edges_values_key_error (node_value h <$> pre) (unique_id node)
           known d rest (node_value h <$> post)).
  - apply Forall_fmap. eapply Forall_impl; [exact Hpre|]. intros n Hn. simpl.
    eapply Forall_impl; [exact Hn|]. intros x Hx. simpl.
    rewrite <- Hdeps. change (unique_id node, node_deps h node) with (node_value h node).
    rewrite <- fmap_cons, <- fmap_app, node_value_keys. exact Hx.
  - eapply Forall_impl; [exact Hknown|]. intros x Hx. simpl.
    rewrite <- Hdeps. change (unique_id node, node_deps h node) with (node_value h node).
    rewrite <- fmap_cons, <- fmap_app, node_value_keys. exact Hx.
  - rewrite <- Hdeps. change (unique_id node, node_deps h node) with (node_value h node).
    rewrite <- fmap_cons, <- fmap_app, node_value_keys. exact Hd.
Qed.

(** X1: a dependency key that is the key of no node makes [build_edges]
    raise [KeyError] with that key: the first such key, in the order of
    the nodes and of their dependency lists, the dependencies before it
    all being keys of nodes. *)
Theorem build_edges_key_error h pre node post known d rest :
  let nodes := pre ++ node :: post in
  store_ok h nodes →
  Forall (λ n, Forall (λ x, x ∈ unique_id <$> nodes) (node_deps h n)) pre →
  node_deps h node = known ++ d :: rest →
  Forall (λ x, x ∈ unique_id <$> nodes) known →
  d ∉ unique_id <$> nodes →
  (build_edges nodes h).1 = Raise (KeyError d).
Proof.
  intros nodes Hok Hpre Hdeps Hknown Hd.
  destruct (build_edges_refines h nodes Hok) as (r & h' & E & _ & _ & Hag).
  unfold nodes in Hag.
  rewrite (node_values_key_error h pre node post known d rest) in Hag by done.
  rewrite E. simpl. destruct r as [[fwd bwd]|e]; simpl in Hag; [done|].
  by rewrite Hag.
Qed.

Lemma build_edges_key_error_witness :
  let h : heap := [ ["model.shop.customers"; "model.shop.payments"] ] in
  let nodes := [customers; mkNode "model.shop.orders" "orders" "shop" Model 0 ""] in
  store_ok h nodes ∧
  (build_edges nodes h).1 = Raise (KeyError "model.shop.payments").
Proof.
  intros h nodes.
  assert (H1 : store_ok h nodes)
    by (apply (bool_decide_unpack _); vm_compute; reflexivity).
  split; [exact H1|].
  apply (build_edges_key_error h [] customers
           [mkNode "model.shop.orders" "orders" "shop" Model 0 ""]
           ["model.shop.customers"] "model.shop.payments" []).
  - exact H1.
  - constructor.
  - reflexivity.
  - apply (bool_decide_unpack _). vm_compute. reflexivity.
  - apply (bool_decide_unpack _). vm_compute. reflexivity.
Defined.

(** X2: when [build_edges] returns, the keys of the forward map and the
    keys of the backward map are exactly the [unique_id]s of the nodes,
    unique or not, depended on or not. *)
Theorem build_edges_keys h nodes fwd bwd h' :
  store_ok h nodes →
  build_edges nodes h = (Ok (fwd, bwd), h') →
  ∀ k, (is_Some (fwd !! k) ↔ k ∈ unique_id <$> nodes) ∧
       (is_Some (bwd !! k) ↔ k ∈ unique_id <$> nodes).
Proof.
  intros Hok E k.
  destruct (build_edges_refines h nodes Hok) as (r & h1 & E1 & _ & _ & Hag).
  rewrite E in E1. injection E1 as <- <-.
  destruct (build_edges_values _) as [[F B]|e] eqn:EV; simpl in Hag; [|done].
  destruct Hag as (RF & RB & _).
  destruct (build_edges_values_keys _ _ _ EV k) as [HF HB].
  rewrite node_value_keys in HF, HB.
  assert (Hrep : ∀ d P, rep h' d P → is_Some (d !! k) ↔ is_Some (P !! k)).
  { intros d P R. split.
    - intros [l Hl]. by eapply rep_is_Some.
    - intros HP. destruct (d !! k) eqn:Hd; [eauto|].
      apply (rep_None _ _ _ _ R) in Hd. rewrite Hd in HP. by destruct HP. }
  split.
  - etransitivity; [by apply Hrep | exact HF].
  - etransitivity; [by apply Hrep | exact HB].
Qed.

Lemma build_edges_keys_witness :
  store_ok store_abc nodes_abc ∧
  ∃ fwd bwd h',
    build_edges nodes_abc store_abc = (Ok (fwd, bwd), h') ∧
    ∀ k, (is_Some (fwd !! k) ↔ k ∈ unique_id <$> nodes_abc) ∧
         (is_Some (bwd !! k) ↔ k ∈ unique_id <$> nodes_abc).
Proof.
  assert (H1 : store_ok store_abc nodes_abc)
    by (apply (bool_decide_unpack _); vm_compute; reflexivity).
  split; [exact H1|].
  destruct (build_edges nodes_abc store_abc) as [[[fwd bwd]|e] h'] eqn:E.
  - exists fwd, bwd, h'. split; [reflexivity|].
    exact (build_edges_keys store_abc nodes_abc fwd bwd h' H1 E).
  - vm_compute in E. discriminate E.
Defined.

(** Where the lists of the two maps are: the forward lists right after
    the lists of [h], one per node, and the backward lists after them. *)
Lemma build_edges_layout h nodes fwd bwd h' :
  store_ok h nodes →
  build_edges nodes h = (Ok (fwd, bwd), h') →
  (∀ k l, fwd !! k = Some l → length h ≤ l < length h + length nodes) ∧
  (∀ k l, bwd !! k = Some l → length h + length nodes ≤ l < length h') ∧
  (∀ k1 k2 l, fwd !! k1 = Some l → fwd !! k2 = Some l → k1 = k2) ∧
  (∀ k1 k2 l, bwd !! k1 = Some l → bwd !! k2 = Some l → k1 = k2).
Proof.
  intros Hok E.
  destruct (forward_comprehension_spec h nodes ∅ h ∅ (length h))
    as (fwd1 & E1 & RF & Hfwd); [apply rep_empty | done | by intros ?? |].
  set (h1 := h ++ replicate (length nodes) []) in *.
  assert (Hlen1 : length h1 = length h + length nodes)
    by (unfold h1; by rewrite length_app, length_replicate).
  destruct (edges_loop_spec h nodes fwd1 ∅ h1
              (forward_values (node_value h <$> nodes) ∅) ∅ Hok)
    as (r & h2 & E2 & Hlen2 & _ & Hag).
  - lia.
  - intros l Hl. unfold h1. by apply lookup_app_l.
  - exact RF.
  - apply rep_empty.
  - exact Hfwd.
  - intros k k' l _. by rewrite lookup_empty.
  - unfold build_edges in E. rewrite (bind_ok _ _ _ _ _ E1) in E.
    destruct r as [bwd1|e].
    + rewrite (bind_ok _ _ _ _ _ E2) in E. injection E as <- <- <-.
      destruct (edges_values_loop _ _ _) as [[F B]|e]; simpl in Hag; [|done].
      destruct Hag as (RF' & RB' & Hloc). split; [|split; [|split]].
      * intros k l Hl. split; [by eapply Hfwd|].
        pose proof (rep_alloc _ _ _ RF _ _ Hl). lia.
      * intros k l Hl. split; [|by eapply rep_alloc].
        apply Hloc in Hl as [Hl|Hl]; [by rewrite lookup_empty in Hl | lia].
      * apply RF'.
      * apply RB'.
    + by rewrite (bind_raise _ _ _ _ _ E2) in E.
Qed.

(** X3: [build_edges] never writes to a list that exists when it is
    called, whether it returns or raises; the lists of the maps it returns
    are all new, and no two entries, of one map or of both, share a
    list. *)
Theorem build_edges_new_lists h nodes :
  store_ok h nodes →
  ∃ r h',
    build_edges nodes h = (r, h') ∧
    (∀ l, l < length h → h' !! l = h !! l) ∧
    match r with
    | Ok (fwd, bwd) =>
        (∀ k l, fwd !! k = Some l ∨ bwd !! k = Some l → length h ≤ l < length h') ∧
        (∀ k1 k2 l, fwd !! k1 = Some l → fwd !! k2 = Some l → k1 = k2) ∧
        (∀ k1 k2 l, bwd !! k1 = Some l → bwd !! k2 = Some l → k1 = k2) ∧
        (∀ k1 k2 l, fwd !! k1 = Some l → bwd !! k2 ≠ Some l)
    | Raise _ => True
    end.
Proof.
  intros Hok.
  destruct (build_edges_refines h nodes Hok) as (r & h' & E & _ & Hold & Hag).
  exists r, h'. split; [done|]. split; [done|].
  destruct r as [[fwd bwd]|e]; [|done].
  destruct (build_edges_values _) as [[F B]|e]; simpl in Hag; [|done].
  destruct Hag as (RF & RB & _).
  destruct (build_edges_layout h nodes fwd bwd h' Hok E) as (Hf & Hb & Hfi & Hbi).
  split; [|split; [done|split; [done|]]].
  - intros k l [Hl|Hl].
    + split; [apply Hf in Hl; lia | exact (rep_alloc _ _ _ RF _ _ Hl)].
    + apply Hb in Hl. lia.
  - intros k1 k2 l H1 H2. apply Hf in H1. apply Hb in H2. lia.
Qed.

Lemma build_edges_new_lists_witness :
  store_ok store_abc nodes_abc ∧
  ∃ r h',
    build_edges nodes_abc store_abc = (r, h') ∧
    (∀ l, l < length store_abc → h' !! l = store_abc !! l) ∧
    match r with
    | Ok (fwd, bwd) =>
        (∀ k l, fwd !! k = Some l ∨ bwd !! k = Some l →
                length store_abc ≤ l < length h') ∧
        (∀ k1 k2 l, fwd !! k1 = Some l → fwd !! k2 = Some l → k1 = k2) ∧
        (∀ k1 k2 l, bwd !! k1 = Some l → bwd !! k2 = Some l → k1 = k2) ∧
        (∀ k1 k2 l, fwd !! k1 = Some l → bwd !! k2 ≠ Some l)
    | Raise _ => True
    end.
Proof.
  assert (H1 : store_ok store_abc nodes_abc)
    by (apply (bool_decide_unpack _); vm_compute; reflexivity).
  split; [exact H1|]. exact (build_edges_new_lists store_abc nodes_abc H1).
Defined.

(** X4: for nodes with unique keys whose dependencies are all keys of
    nodes, the forward list of a key holds the keys of the nodes that
    depend on it, in the order of the nodes, each once per occurrence of
    the key in its dependency list. *)
Theorem build_edges_forward_lists h nodes :
  store_ok h nodes → unique_keys nodes → complete h nodes →
  ∃ fwd bwd h',
    build_edges nodes h = (Ok (fwd, bwd), h') ∧
    ∀ node, node ∈ nodes →
      edge_lists h' fwd !! unique_id node
        = Some (dependents (node_value h <$> nodes) (unique_id node)).
Proof.
  intros Hok Huniq Hcomplete.
  destruct (build_edges_complete h nodes Hok Huniq Hcomplete)
    as (fwd & bwd & h' & E & _ & _ & _ & HF & _).
  by exists fwd, bwd, h'.
Qed.

Lemma build_edges_forward_lists_witness :
  store_ok store_abc nodes_abc ∧ unique_keys nodes_abc ∧
  complete store_abc nodes_abc ∧
  ∃ fwd bwd h',
    build_edges nodes_abc store_abc = (Ok (fwd, bwd), h') ∧
    ∀ node, node ∈ nodes_abc →
      edge_lists h' fwd !! unique_id node
        = Some (dependents (node_value store_abc <$> nodes_abc) (unique_id node)).
Proof.
  assert (H1 : store_ok store_abc nodes_abc)
    by (apply (bool_decide_unpack _); vm_compute; reflexivity).
  assert (H2 : unique_keys nodes_abc)
    by (apply (bool_decide_unpack _); vm_compute; reflexivity).
  assert (H3 : complete store_abc nodes_abc)
    by (apply (bool_decide_unpack _); vm_compute; reflexivity).
  split; [exact H1|]. split; [exact H2|]. split; [exact H3|].
  exact (build_edges_forward_lists store_abc nodes_abc H1 H2 H3).
Defined.

Lemma filter_eq_absent (ds : list string) k :
  k ∉ ds → filter (λ d, d = k) ds = [].
Proof.
  induction ds as [|d ds IH]; intros Hk; [done|].
  apply not_elem_of_cons in Hk as [Hne Hk].
  rewrite filter_cons_False by (by intros ->). auto.
Qed.

Lemma filter_eq_NoDup (ds : list string) k :
  NoDup ds → filter (λ d, d = k) ds = [] ∨ filter (λ d, d = k) ds = [k].
Proof.
  induction ds as [|d ds IH]; intros Hnd; [by left|].
  apply NoDup_cons in Hnd as [Hd Hnd]. destruct (decide (d = k)) as [->|Hne].
  - right. rewrite filter_cons_True by done. by rewrite filter_eq_absent.
  - rewrite filter_cons_False by done. auto.
Qed.

Lemma dependents_NoDup ns k :
  NoDup ns.*1 → Forall (λ item, NoDup item.2) ns → NoDup (dependents ns k).
Proof.
  induction ns as [|[u ds] rest IH]; intros Hkeys Hdeps; [constructor|].
  rewrite fmap_cons in Hkeys. apply NoDup_cons in Hkeys as [Hu Hkeys].
  apply Forall_cons in Hdeps as [Hds Hdeps]. simpl in Hds.
  rewrite dependents_cons.
  destruct (filter_eq_NoDup ds k Hds) as [-> | ->]; simpl; [auto|].
  apply NoDup_cons. split; [|auto].
  intros (ds' & Hin & _)%elem_of_dependents. apply Hu.
  by apply (list_elem_of_fmap_2 fst) in Hin.
Qed.

(** X5: when, besides, no dependency list names a key twice, no forward
    list names a node twice. *)
Theorem build_edges_forward_NoDup h nodes :
  store_ok h nodes → unique_keys nodes → complete h nodes →
  Forall (λ node, NoDup (node_deps h node)) nodes →
  ∃ fwd bwd h',
    build_edges nodes h = (Ok (fwd, bwd), h') ∧
    ∀ node, node ∈ nodes →
      ∃ dependents_of, edge_lists h' fwd !! unique_id node = Some dependents_of ∧
                       NoDup dependents_of.
Proof.
  intros Hok Huniq Hcomplete Hdeps.
  destruct (build_edges_complete h nodes Hok Huniq Hcomplete)
    as (fwd & bwd & h' & E & _ & _ & _ & HF & _).
  exists fwd, bwd, h'. split; [done|]. intros node Hnode.
  eexists. split; [by apply HF|]. apply dependents_NoDup.
  - by rewrite node_value_keys.
  - apply Forall_fmap. eapply Forall_impl; [exact Hdeps|]. done.
Qed.

Lemma build_edges_forward_NoDup_witness :
  store_ok store_abc nodes_abc ∧ unique_keys nodes_abc ∧
  complete store_abc nodes_abc ∧
  Forall (λ node, NoDup (node_deps store_abc node)) nodes_abc ∧
  ∃ fwd bwd h',
    build_edges nodes_abc store_abc = (Ok (fwd, bwd), h') ∧
    ∀ node, node ∈ nodes_abc →
      ∃ dependents_of, edge_lists h' fwd !! unique_id node = Some dependents_of ∧
                       NoDup dependents_of.
Proof.
  assert (H1 : store_ok store_abc nodes_abc)
    by (apply (bool_decide_unpack _); vm_compute; reflexivity).
  assert (H2 : unique_keys nodes_abc)
    by (apply (bool_decide_unpack _); vm_compute; reflexivity).
  assert (H3 : complete store_abc nodes_abc)
    by (apply (bool_decide_unpack _); vm_compute; reflexivity).
  assert (H4 : Forall (λ node, NoDup (node_deps store_abc node)) nodes_abc)
    by (apply (bool_decide_unpack _); vm_compute; reflexivity).
  split; [exact H1|]. split; [exact H2|]. split; [exact H3|]. split; [exact H4|].
  exact (build_edges_forward_NoDup store_abc nodes_abc H1 H2 H3 H4).
Defined.

(** ** serialize: the maps and the error *)

(** X6: [serialize] lets the [KeyError] of [build_edges] through: a
    manifest with a node whose dependency is the [unique_id] of no node
    cannot be serialized. *)
Theorem serialize_key_error `{Serializer} (self : Manifest) h pre node post known d rest :
  dict_values (nodes self) = pre ++ node :: post →
  store_ok h (dict_values (nodes self)) →
  Forall (λ n, Forall (λ x, x ∈ unique_id <$> dict_values (nodes self))
                      (node_deps h n)) pre →
  node_deps h node = known ++ d :: rest →
  Forall (λ x, x ∈ unique_id <$> dict_values (nodes self)) known →
  d ∉ unique_id <$> dict_values (nodes self) →
  (serialize self h).1 = Raise (KeyError d).
Proof.
  intros Hnodes Hok Hpre Hdeps Hknown Hd.
  destruct (serialize_edges self h Hok) as (r & h' & E & _ & _ & Hag).
  rewrite Hnodes in Hag, Hpre, Hknown, Hd.
  rewrite (node_values_key_error h pre node post known d rest) in Hag by done.
  rewrite E. simpl. destruct r as [s|e]; simpl in Hag; [done|]. by rewrite Hag.
Qed.

(** X7: for a manifest whose nodes have unique [unique_id]s and complete
    dependencies, [serialize] returns; its [parent_map] gives under the
    [unique_id] of every node the dependencies of the node and its
    [child_map] the dependents.  Every node, macro and doc is serialized
    under its key, in the order of its mapping: the nodes in the store the
    call leaves, in which their dependency lists are as before; and
    [generated_at] is the manifest's. *)
Theorem serialize_maps `{Serializer} (self : Manifest) h :
  store_ok h (dict_values (nodes self)) →
  unique_keys (dict_values (nodes self)) →
  complete h (dict_values (nodes self)) →
  ∃ s h',
    serialize self h = (Ok s, h') ∧
    s_nodes s = (λ item, (item.1, serialize_node h' item.2)) <$> nodes self ∧
    s_macros s = (λ item, (item.1, serialize_macro item.2)) <$> macros self ∧
    s_docs s = (λ item, (item.1, serialize_doc item.2)) <$> docs self ∧
    s_generated_at s = generated_at self ∧
    ∀ node, node ∈ dict_values (nodes self) →
      node_deps h' node = node_deps h node ∧
      edge_lists h' (parent_map s) !! unique_id node = Some (node_deps h node) ∧
      edge_lists h' (child_map s) !! unique_id node
        = Some (dependents (node_value h <$> dict_values (nodes self))
                           (unique_id node)).
Proof.
  intros Hok Huniq Hcomplete.
  destruct (build_edges_complete h _ Hok Huniq Hcomplete)
    as (fwd & bwd & h' & E & Hold & _ & _ & HF & HB).
  eexists _, h'. unfold serialize. rewrite (bind_ok _ _ _ _ _ E).
  split; [reflexivity|]. simpl.
  assert (Hmap : ∀ A B (f : A → B) (d : dict A),
            prod_map id f <$> d = (λ item, (item.1, f item.2)) <$> d).
  { intros A B f d. apply list_fmap_ext. by intros i [k v] _. }
  rewrite !Hmap. repeat (split; [done|]). intros node Hnode.
  split; [|auto]. apply node_deps_frame; [|done].
  unfold store_ok in Hok. rewrite Forall_forall in Hok. by apply Hok.
Qed.

Lemma serialize_maps_witness :
  store_ok store_abc (dict_values (nodes manifest_abc)) ∧
  unique_keys (dict_values (nodes manifest_abc)) ∧
  complete store_abc (dict_values (nodes manifest_abc)) ∧
  ∃ s h',
    @serialize key_serializer manifest_abc store_abc = (Ok s, h') ∧
    s_nodes s
      = (λ item, (item.1, @serialize_node key_serializer h' item.2))
          <$> nodes manifest_abc ∧
    s_macros s
      = (λ item, (item.1, @serialize_macro key_serializer item.2))
          <$> macros manifest_abc ∧
    s_docs s
      = (λ item, (item.1, @serialize_doc key_serializer item.2))
          <$> docs manifest_abc ∧
    s_generated_at s = generated_at manifest_abc ∧
    ∀ node, node ∈ dict_values (nodes manifest_abc) →
      node_deps h' node = node_deps store_abc node ∧
      edge_lists h' (parent_map s) !! unique_id node
        = Some (node_deps store_abc node) ∧
      edge_lists h' (child_map s) !! unique_id node
        = Some (dependents (node_value store_abc <$> dict_values (nodes manifest_abc))
                           (unique_id node)).
Proof.
  assert (H1 : store_ok store_abc (dict_values (nodes manifest_abc)))
    by (apply (bool_decide_unpack _); vm_compute; reflexivity).
  assert (H2 : unique_keys (dict_values (nodes manifest_abc)))
    by (apply (bool_decide_unpack _); vm_compute; reflexivity).
  assert (H3 : complete store_abc (dict_values (nodes manifest_abc)))
    by (apply (bool_decide_unpack _); vm_compute; reflexivity).
  split; [exact H1|]. split; [exact H2|]. split; [exact H3|].
  exact (@serialize_maps key_serializer manifest_abc store_abc H1 H2 H3).
Defined.

Lemma serialize_key_error_witness :
  let h : heap := [ ["model.shop.payments"] ] in
  let self := mkManifest [("model.shop.customers", customers)] [] [] "" in
  store_ok h (dict_values (nodes self)) ∧
  (@serialize key_serializer self h).1 = Raise (KeyError "model.shop.payments").
Proof.
  intros h self.
  assert (H1 : store_ok h (dict_values (nodes self)))
    by (apply (bool_decide_unpack _); vm_compute; reflexivity).
  split; [exact H1|].
  apply (@serialize_key_error key_serializer self h [] customers [] []
           "model.shop.payments" []).
  - reflexivity.
  - exact H1.
  - constructor.
  - reflexivity.
  - constructor.
  - apply (bool_decide_unpack _). vm_compute. reflexivity.
Defined.

(** ** add_nodes: what stays, what is added *)

Lemma dict_get_elem {V} (d : dict V) k v :
  dict_wf d → (k, v) ∈ d → dict_get k d = Some v.
Proof.
  unfold dict_wf. induction d as [|[k' v'] d IH]; intros Hwf Hin.
  - by apply elem_of_nil in Hin.
  - rewrite fmap_cons in Hwf. apply NoDup_cons in Hwf as [Hk Hwf]. cbn [dict_get].
    apply elem_of_cons in Hin as [[= <- <-]|Hin].
    + by rewrite decide_True.
    + rewrite decide_False; [auto|]. cbn [fst]. intros ->. apply Hk.
      by apply (list_elem_of_fmap_2 fst) in Hin.
Qed.

Lemma dict_wf_snoc {V} (d : dict V) k v :
  dict_wf d → dict_get k d = None → dict_wf (d ++ [(k, v)]).
Proof.
  unfold dict_wf. intros Hwf Hget. rewrite fmap_app. apply NoDup_app.
  split; [done|]. split; [|apply NoDup_singleton].
  intros k' Hk' ->%list_elem_of_singleton. by apply dict_get_None in Hget.
Qed.

(** What a call that returns has done. *)
Lemma add_nodes_ok_inv new_nodes : ∀ self_nodes nodes',
  add_nodes new_nodes self_nodes = (Ok (), nodes') →
  dict_wf new_nodes ∧
  (∀ k, k ∈ new_nodes.*1 → dict_get k self_nodes = None) ∧
  nodes' = self_nodes ++ new_nodes.
Proof.
  unfold add_nodes, dict_wf.
  induction new_nodes as [|[k node] rest IH]; intros self_nodes nodes' E.
  - injection E as <-. rewrite app_nil_r. split; [constructor|]. split; [|done].
    by intros k []%elem_of_nil.
  - rewrite for_each_cons in E.
    destruct (dict_get k self_nodes) as [existing|] eqn:Hget.
    + rewrite add_node_collision in E by eauto. done.
    + rewrite add_node_fresh in E by done.
      destruct (IH _ _ E) as (Hwf & Hfresh & ->).
      assert (Hk : k ∉ rest.*1).
      { intros Hin. specialize (Hfresh k Hin). rewrite dict_get_app, Hget in Hfresh.
        simpl in Hfresh. by rewrite decide_True in Hfresh. }
      rewrite fmap_cons. split; [by apply NoDup_cons|]. split.
      * intros k' [->|Hin]%elem_of_cons; [done|].
        specialize (Hfresh k' Hin). rewrite dict_get_app in Hfresh.
        by destruct (dict_get k' self_nodes).
      * by rewrite <- app_assoc.
Qed.

(** X9: [add_nodes] returns exactly when the new keys are all absent
    from the node mapping (and distinct, as the keys of a dictionary
    are); the node mapping is then the old one followed by the new
    entries, in their order. *)
Theorem add_nodes_ok_iff new_nodes self_nodes :
  ((add_nodes new_nodes self_nodes).1 = Ok () ↔
     dict_wf new_nodes ∧ ∀ k, k ∈ new_nodes.*1 → dict_get k self_nodes = None) ∧
  ((add_nodes new_nodes self_nodes).1 = Ok () →
     (add_nodes new_nodes self_nodes).2 = self_nodes ++ new_nodes).
Proof.
  destruct (add_nodes new_nodes self_nodes) as [r nodes'] eqn:E. simpl.
  split; [split|].
  - intros ->. by destruct (add_nodes_ok_inv _ _ _ E) as (? & ? & _).
  - intros [Hwf Hfresh]. rewrite add_nodes_fresh in E by done. by injection E as <- _.
  - intros ->. by destruct (add_nodes_ok_inv _ _ _ E) as (_ & _ & ->).
Qed.

(** X10: whether it returns or raises, [add_nodes] only appends to the
    node mapping, and only entries of [new_nodes], from its start: no
    entry is replaced, removed or moved, and the keys stay unique. *)
Theorem add_nodes_appends new_nodes : ∀ self_nodes,
  dict_wf self_nodes →
  ∃ added,
    added `prefix_of` new_nodes ∧
    (add_nodes new_nodes self_nodes).2 = self_nodes ++ added ∧
    dict_wf (self_nodes ++ added) ∧
    ∀ k v, dict_get k self_nodes = Some v →
           dict_get k (self_nodes ++ added) = Some v.
Proof.
  unfold add_nodes.
  induction new_nodes as [|[k node] rest IH]; intros self_nodes Hwf.
  - exists []. rewrite app_nil_r. split; [done|]. split; [done|]. done.
  - rewrite for_each_cons.
    destruct (dict_get k self_nodes) as [existing|] eqn:Hget.
    + rewrite add_node_collision by eauto. exists []. rewrite app_nil_r.
      split; [apply prefix_nil|]. done.
    + rewrite add_node_fresh by done.
      destruct (IH (self_nodes ++ [(k, node)])) as (added & Hpre & E & Hwf' & Hkeep).
      { by apply dict_wf_snoc. }
      exists ((k, node) :: added). rewrite <- app_assoc in E, Hwf'. simpl in E, Hwf'.
      split; [by apply prefix_cons|]. split; [done|]. split; [done|].
      intros k' v Hk'. rewrite dict_get_app, Hk'. done.
Qed.

(** X11: after a call that returns, every new node is found under its
    key. *)
Theorem add_nodes_lookup new_nodes self_nodes nodes' k node :
  add_nodes new_nodes self_nodes = (Ok (), nodes') →
  (k, node) ∈ new_nodes →
  dict_get k nodes' = Some node.
Proof.
  intros E Hin. destruct (add_nodes_ok_inv _ _ _ E) as (Hwf & Hfresh & ->).
  rewrite dict_get_app, Hfresh by (by apply (list_elem_of_fmap_2 fst) in Hin).
  by apply dict_get_elem.
Qed.

(** X12: adding two batches in one call or in two calls is the same: the
    same nodes are inserted and the same call, if any, raises. *)
Theorem add_nodes_app first second self_nodes :
  add_nodes (first ++ second) self_nodes =
    match add_nodes first self_nodes with
    | (Ok _, nodes') => add_nodes second nodes'
    | (Raise e, nodes') => (Raise e, nodes')
    end.
Proof.
  unfold add_nodes. revert self_nodes.
  induction first as [|item first IH]; intros self_nodes; [done|].
  rewrite <- app_comm_cons, !for_each_cons.
  destruct (add_node item self_nodes) as [[[]|e] nodes1]; [apply IH | done].
Qed.

(** X13: adding the same nodes again, after a call that returned, raises
    at the first of them and changes nothing. *)
Theorem add_nodes_again new_nodes self_nodes nodes' :
  add_nodes new_nodes self_nodes = (Ok (), nodes') →
  new_nodes ≠ [] →
  add_nodes new_nodes nodes'
    = (Raise (NameError "raise_duplicate_resource_name"), nodes').
Proof.
  intros E Hne. destruct (add_nodes_ok_inv _ _ _ E) as (Hwf & Hfresh & ->).
  destruct new_nodes as [|[k node] rest]; [done|].
  unfold add_nodes. rewrite for_each_cons, add_node_collision; [done|].
  rewrite dict_get_app, Hfresh by (rewrite fmap_cons; left).
  simpl. rewrite decide_True by done. eauto.
Qed.

Lemma add_nodes_appends_witness :
  let self_nodes := [("model.shop.customers", customers)] in
  let new_nodes :=
    [("model.shop.orders", orders); ("model.shop.customers", customers_again)] in
  dict_wf self_nodes ∧
  ∃ added,
    added `prefix_of` new_nodes ∧
    (add_nodes new_nodes self_nodes).2 = self_nodes ++ added ∧
    dict_wf (self_nodes ++ added) ∧
    ∀ k v, dict_get k self_nodes = Some v →
           dict_get k (self_nodes ++ added) = Some v.
Proof.
  intros self_nodes new_nodes.
  assert (H1 : dict_wf self_nodes)
    by (apply (bool_decide_unpack _); vm_compute; reflexivity).
  split; [exact H1|]. exact (add_nodes_appends new_nodes self_nodes H1).
Defined.

Lemma add_nodes_lookup_witness :
  add_nodes [("model.shop.orders", orders)] [("model.shop.customers", customers)]
    = (Ok (), [("model.shop.customers", customers); ("model.shop.orders", orders)]) ∧
  dict_get "model.shop.orders"
           [("model.shop.customers", customers); ("model.shop.orders", orders)]
    = Some orders.
Proof.
  split; [reflexivity|].
  apply (add_nodes_lookup [("model.shop.orders", orders)]
           [("model.shop.customers", customers)]).
  - reflexivity.
  - left.
Defined.

Lemma add_nodes_again_witness :
  let nodes' := [("model.shop.customers", customers); ("model.shop.orders", orders)] in
  add_nodes [("model.shop.orders", orders)] [("model.shop.customers", customers)]
    = (Ok (), nodes') ∧
  add_nodes [("model.shop.orders", orders)] nodes'
    = (Raise (NameError "raise_duplicate_resource_name"), nodes').
Proof.
  intros nodes'. split; [reflexivity|].
  apply (add_nodes_again [("model.shop.orders", orders)]
           [("model.shop.customers", customers)]).
  - reflexivity.
  - discriminate.
Defined.

(** ** patch_nodes: what is left alone *)

Lemma dict_pop_absent {V} (d : dict V) k : k ∉ d.*1 → dict_pop k d = (None, d).
Proof.
  induction d as [|[k' v] d IH]; intros Hk; [done|].
  rewrite fmap_cons in Hk. apply not_elem_of_cons in Hk as [Hne Hk].
  cbn [dict_pop]. rewrite decide_False by (by intros ->). by rewrite IH.
Qed.

Lemma patch_scan_no_target `{Patching} self_nodes : ∀ patches,
  (∀ item, item ∈ patches → item.1 ∉ model_names self_nodes) →
  patch_scan self_nodes patches = (self_nodes, patches).
Proof.
  induction self_nodes as [|[k n] rest IH]; intros patches Hno; [done|].
  cbn [patch_scan]. destruct (decide (resource_type n = Model)) as [Hmodel|Hother].
  - rewrite decide_False by (by intros ?).
    assert (Hno' : ∀ item, item ∈ patches →
                           item.1 ≠ name n ∧ item.1 ∉ model_names rest).
    { intros item Hitem. specialize (Hno item Hitem).
      rewrite model_names_cons_model in Hno by done.
      by apply not_elem_of_cons in Hno. }
    rewrite dict_pop_absent.
    + rewrite IH; [done|]. intros item Hitem. by apply Hno'.
    + intros (item & Hname & Hitem)%list_elem_of_fmap.
      by destruct (Hno' item Hitem) as [? _].
  - rewrite decide_True by done. rewrite IH; [done|].
    intros item Hitem. specialize (Hno item Hitem).
    by rewrite model_names_cons_other in Hno.
Qed.

(** X14: patches of which none is keyed by the name of a model change no
    node and stay in the patches; each is logged, in order.  With no
    patch at all the call does nothing. *)
Theorem patch_nodes_no_target `{Patching} self patches :
  (∀ item, item ∈ patches → item.1 ∉ model_names (nodes self)) →
  patch_nodes self patches = (self, patches, patch_warning <$> dict_values patches).
Proof.
  intros Hno. rewrite (patch_nodes_run self patches (nodes self) patches).
  - by destruct self.
  - by apply patch_scan_no_target.
Qed.

Lemma patch_nodes_no_target_witness :
  (∀ item, item ∈ [("payments", payments_patch)] → item.1 ∉ model_names (nodes shop)) ∧
  @patch_nodes content_patching shop [("payments", payments_patch)]
    = (shop, [("payments", payments_patch)],
       @patch_warning content_patching <$> dict_values [("payments", payments_patch)]).
Proof.
  assert (H1 : ∀ item, item ∈ [("payments", payments_patch)] →
                       item.1 ∉ model_names (nodes shop)).
  { intros item ->%list_elem_of_singleton. apply (bool_decide_unpack _).
    vm_compute. reflexivity. }
  split; [exact H1|].
  exact (@patch_nodes_no_target content_patching shop _ H1).
Defined.

(** X15: a node whose resource type is not [Model] is never patched,
    whatever the patches: also when one bears its name. *)
Theorem patch_nodes_other_types `{Patching} self patches i unique_id node :
  dict_wf patches →
  nodes self !! i = Some (unique_id, node) →
  resource_type node ≠ Model →
  nodes (patch_nodes self patches).1.1 !! i = Some (unique_id, node).
Proof.
  intros Hwf Hi Hother.
  destruct (patch_scan_spec (nodes self) patches Hwf) as (nodes' & E & _ & Hnodes).
  rewrite (patch_nodes_run _ _ _ _ E). simpl.
  rewrite (Hnodes _ _ _ Hi). unfold patched.
  rewrite decide_False; [done|]. by intros [? _].
Qed.

(** X16: a patch that is false for [not patch], keyed by the name of a
    model, is taken out of the patches by the first model of that name
    and dropped: the model is left as it is, no entry of that name is
    left, and so no line is logged for the patch. *)
Theorem patch_nodes_false_patch `{Patching} self patches i unique_id node patch :
  dict_wf patches →
  nodes self !! i = Some (unique_id, node) →
  resource_type node = Model →
  dict_get (name node) patches = Some patch →
  patch_truthy patch = false →
  ∃ self' patches' logged,
    patch_nodes self patches = (self', patches', logged) ∧
    nodes self' !! i = Some (unique_id, node) ∧
    (name node ∉ patches'.*1) ∧
    logged = patch_warning <$> dict_values patches'.
Proof.
  intros Hwf Hi Hmodel Hget Hfalse.
  destruct (patch_scan_spec (nodes self) patches Hwf) as (nodes' & E & _ & Hnodes).
  eexists _, _, _. split; [by apply patch_nodes_run|]. simpl.
  split; [|split; [|done]].
  - rewrite (Hnodes _ _ _ Hi). unfold patched. case_decide; [|done].
    by rewrite Hget, Hfalse.
  - intros (item & Hitem & Hin)%list_elem_of_fmap.
    apply list_elem_of_filter in Hin as [Hnot _]. apply Hnot.
    rewrite <- Hitem. unfold model_names, dict_values.
    apply list_elem_of_fmap. exists node. split; [done|].
    apply list_elem_of_filter. split; [done|].
    apply list_elem_of_fmap. exists (unique_id, node). split; [done|].
    apply list_elem_of_lookup. eauto.
Qed.

Lemma patch_nodes_other_types_witness :
  let seed := mkNode "seed.shop.customers" "customers" "shop" Seed 0 "" in
  let self := mkManifest [("seed.shop.customers", seed)] [] [] "" in
  let patches := [("customers", customers_patch)] in
  dict_wf patches ∧
  nodes (@patch_nodes content_patching self patches).1.1 !! 0
    = Some ("seed.shop.customers", seed).
Proof.
  intros seed self patches.
  assert (H1 : dict_wf patches)
    by (apply (bool_decide_unpack _); vm_compute; reflexivity).
  split; [exact H1|].
  apply (@patch_nodes_other_types content_patching self patches 0
           "seed.shop.customers" seed H1).
  - reflexivity.
  - discriminate.
Defined.

Lemma patch_nodes_false_patch_witness :
  let patches : dict (dict string) := [("customers", [])] in
  dict_wf patches ∧
  ∃ self' patches' logged,
    @patch_nodes content_patching shop patches = (self', patches', logged) ∧
    nodes self' !! 0 = Some ("model.shop.customers", customers) ∧
    (name customers ∉ patches'.*1) ∧
    logged = @patch_warning content_patching <$> dict_values patches'.
Proof.
  intros patches.
  assert (H1 : dict_wf patches)
    by (apply (bool_decide_unpack _); vm_compute; reflexivity).
  split; [exact H1|].
  apply (@patch_nodes_false_patch content_patching shop patches 0
           "model.shop.customers" customers [] H1); reflexivity.
Defined.

Lemma model_names_ext (l : dict Node) : ∀ l',
  length l = length l' →
  (∀ i kv kv', l !! i = Some kv → l' !! i = Some kv' →
     name kv.2 = name kv'.2 ∧ resource_type kv.2 = resource_type kv'.2) →
  model_names l = model_names l'.
Proof.
  induction l as [|[k n] l IH]; intros [|[k' n'] l'] Hlen Hsame; try done.
  destruct (Hsame 0 (k, n) (k', n')) as [Hname Htype]; [done..|]. simpl in *.
  assert (Hrest : model_names l = model_names l').
  { apply IH; [lia|]. intros i kv kv' Hi Hi'. by apply (Hsame (S i)). }
  destruct (decide (resource_type n = Model)) as [Hmodel|Hother].
  - rewrite !model_names_cons_model by congruence. by rewrite Hname, Hrest.
  - rewrite !model_names_cons_other by congruence. done.
Qed.

Lemma patched_identity `{Patching} patches earlier node :
  patch_keeps_identity →
  name (patched patches earlier node) = name node ∧
  resource_type (patched patches earlier node) = resource_type node.
Proof.
  intros Hkeeps. unfold patched. case_decide; [|done].
  destruct (dict_get (name node) patches) as [patch|]; [|done].
  destruct (patch_truthy patch); [apply Hkeeps | done].
Qed.

(** X17: when patching a node changes neither its name nor its resource
    type, the patches a call leaves are settled: a second call with them
    changes no node, leaves the same patches and logs the same lines. *)
Theorem patch_nodes_leftover `{Patching} self patches self' patches' logged :
  patch_keeps_identity →
  dict_wf patches →
  patch_nodes self patches = (self', patches', logged) →
  patch_nodes self' patches' = (self', patches', logged).
Proof.
  intros Hkeeps Hwf E.
  destruct (patch_scan_spec (nodes self) patches Hwf) as (nodes' & Escan & Hkeys & Hnodes).
  rewrite (patch_nodes_run _ _ _ _ Escan) in E. injection E as <- <- <-.
  assert (Hnames : model_names nodes' = model_names (nodes self)).
  { apply model_names_ext.
    - by rewrite <- (length_fmap fst nodes'), Hkeys, length_fmap.
    - intros i kv [k node] Hi' Hi. rewrite (Hnodes _ _ _ Hi) in Hi'.
      injection Hi' as <-. simpl. by apply patched_identity. }
  rewrite (patch_nodes_run _ _ nodes'
             (filter (λ item, item.1 ∉ model_names (nodes self)) patches)); [done|].
  apply patch_scan_no_target. simpl. intros item Hitem. rewrite Hnames.
  by apply list_elem_of_filter in Hitem as [? _].
Qed.

Lemma patch_nodes_leftover_witness :
  let patches := [("customers", customers_patch); ("payments", payments_patch)] in
  let self' := mkManifest [("model.shop.customers", customers_patched);
                           ("model.shop.orders", orders)] [] [] "" in
  let patches' := [("payments", payments_patch)] in
  let logged := @patch_warning content_patching <$> dict_values patches' in
  @patch_keeps_identity content_patching ∧
  dict_wf patches ∧
  @patch_nodes content_patching shop patches = (self', patches', logged) ∧
  @patch_nodes content_patching self' patches' = (self', patches', logged).
Proof.
  intros patches self' patches' logged.
  assert (H1 : @patch_keeps_identity content_patching)
    by (intros node patch; split; reflexivity).
  assert (H2 : dict_wf patches)
    by (apply (bool_decide_unpack _); vm_compute; reflexivity).
  assert (H3 : @patch_nodes content_patching shop patches = (self', patches', logged))
    by reflexivity.
  split; [exact H1|]. split; [exact H2|]. split; [exact H3|].
  exact (@patch_nodes_leftover content_patching shop patches self' patches' logged
           H1 H2 H3).
Defined.

(** ** find_docs_by_name: keys, packages and names *)

Lemma split_nonempty sep s : split sep s ≠ [].
Proof.
  destruct s as [|c s]; [done|]. simpl. case_decide; [done|].
  by destruct (split sep s).
Qed.

(** Splitting what was joined by the separator. *)
Lemma split_app_sep sep a b :
  split sep (a +:+ String sep b) = split sep a ++ split sep b.
Proof.
  induction a as [|c a IH]; simpl.
  - by rewrite decide_True.
  - rewrite IH. case_decide; [done|].
    pose proof (split_nonempty sep a). by destruct (split sep a).
Qed.

(** Joining what was split gives the string back. *)
Lemma join_split sep s : join sep (split sep s) = s.
Proof.
  induction s as [|c s IH]; [done|]. simpl.
  pose proof (split_nonempty sep s) as Hne.
  destruct (split sep s) as [|part parts]; [done|].
  case_decide as Hc.
  - subst c. change (join sep (EmptyString :: part :: parts))
      with (String sep (join sep (part :: parts))). by rewrite IH.
  - destruct parts as [|part' parts].
    + simpl in *. by rewrite IH.
    + change (join sep (String c part :: part' :: parts))
        with (String c (join sep (part :: part' :: parts))). by rewrite IH.
Qed.

(** No part of a split holds the separator. *)
Lemma split_parts sep s : Forall (λ part, has_char sep part = false) (split sep s).
Proof.
  induction s as [|c s IH]; [by repeat constructor|]. simpl.
  case_decide as Hc; [by constructor|].
  destruct (split sep s) as [|part parts]; [by repeat constructor; simpl; rewrite bool_decide_eq_false_2|].
  apply Forall_cons in IH as [Hpart Hparts]. constructor; [|done].
  simpl. by rewrite Hpart, bool_decide_eq_false_2.
Qed.

Lemma split_singleton sep s part : split sep s = [part] → s = part.
Proof. intros E. by rewrite <- (join_split sep s), E. Qed.

(** A key of two segments matches a name and a package exactly when it is
    the package, a dot and the name. *)
Lemma doc_matches_key name package unique_id :
  two_segments unique_id →
  doc_matches name (Some package) unique_id ↔ unique_id = doc_key package name.
Proof.
  intros Htwo. split.
  - intros (p & n & E & -> & [?|[= ->]]); [done|].
    by rewrite <- (join_split "." unique_id), E.
  - intros ->. unfold two_segments, doc_key in Htwo.
    unfold doc_matches, doc_key. rewrite split_app_sep in *.
    pose proof (split_nonempty "." package) as Hp.
    pose proof (split_nonempty "." name) as Hn.
    destruct (split "." package) as [|p [|]] eqn:Ep; try done;
      destruct (split "." name) as [|n [|]] eqn:En; try done;
      rewrite length_app in Htwo; simpl in Htwo; try lia.
    apply split_singleton in Ep as ->. apply split_singleton in En as ->.
    exists p, n. auto.
Qed.

Lemma doc_matches_any_package name package unique_id :
  doc_matches name (Some package) unique_id → doc_matches name None unique_id.
Proof. intros (p & n & E & Hn & _). exists p, n. auto. Qed.

Lemma doc_matches_decide name package unique_id :
  doc_matches name package unique_id ∨ ¬ doc_matches name package unique_id.
Proof.
  destruct (split "." unique_id) as [|p [|n [|]]] eqn:E;
    try (right; intros (p' & n' & E' & _); congruence).
  destruct (decide (name = n ∧ (package = None ∨ package = Some p)))
    as [[Hn Hp]|Hno].
  - left. by exists p, n.
  - right. intros (p' & n' & E' & Hn & Hp). rewrite E in E'.
    injection E' as <- <-. by apply Hno.
Qed.

(** X18: the doc [find_docs_by_name] returns is a doc of the manifest
    whose key matches the name and the package, whatever the other keys
    are. *)
Theorem find_docs_by_name_sound self name package doc :
  find_docs_by_name self name package = Ok (Some doc) →
  ∃ unique_id, (unique_id, doc) ∈ docs self ∧ doc_matches name package unique_id.
Proof.
  unfold find_docs_by_name. intros E.
  pose proof (find_docs_loop_scan (docs self) name package) as Hscan.
  rewrite E in Hscan.
  inversion Hscan as [|pre unique_id doc' post Hpre Hmatch Hitems Hres|].
  exists unique_id. split; [|done]. apply elem_of_app. right. left.
Qed.

(** X19: [None] is returned only after every key has been checked: every
    doc key of the manifest then has two segments, and none matches. *)
Theorem find_docs_by_name_none self name package :
  find_docs_by_name self name package = Ok None →
  Forall (λ item, two_segments item.1 ∧ ¬ doc_matches name package item.1) (docs self).
Proof.
  unfold find_docs_by_name. intros E.
  pose proof (find_docs_loop_scan (docs self) name package) as Hscan.
  rewrite E in Hscan. by inversion Hscan.
Qed.

(** X20: a lookup that finds a doc with a package given finds one as well
    with none given: dropping the package never turns a doc found into
    not found, or into an error. *)
Theorem find_docs_by_name_without_package self name package doc :
  find_docs_by_name self name (Some package) = Ok (Some doc) →
  ∃ doc', find_docs_by_name self name None = Ok (Some doc').
Proof.
  unfold find_docs_by_name. induction (docs self) as [|[unique_id d] rest IH].
  - done.
  - intros E.
    destruct (decide (two_segments unique_id)) as [Htwo|Hbad];
      [|by rewrite find_docs_loop_malformed in E].
    destruct (doc_matches_decide name None unique_id) as [Hany|Hnone].
    + exists d. by apply find_docs_loop_match.
    + rewrite find_docs_loop_pass by done.
      rewrite find_docs_loop_pass in E; [auto|].
      split; [done|]. intros Hm. by apply Hnone, (doc_matches_any_package _ package).
Qed.

(** X21: when every doc key has two segments, looking up a name in a
    package is reading the doc mapping at the key made of the package, a
    dot and the name. *)
Theorem find_docs_by_name_key self name package :
  Forall (λ item, two_segments item.1) (docs self) →
  find_docs_by_name self name (Some package)
    = Ok (dict_get (doc_key package name) (docs self)).
Proof.
  unfold find_docs_by_name. induction (docs self) as [|[unique_id d] rest IH].
  - done.
  - intros [Htwo Hrest]%Forall_cons. simpl in Htwo. cbn [dict_get].
    case_decide as Hkey.
    + apply find_docs_loop_match. by apply doc_matches_key.
    + rewrite find_docs_loop_pass; [auto|]. split; [done|].
      by rewrite doc_matches_key.
Qed.

(** X22: a name with a dot in it is never found: the lookup returns
    [None] or raises. *)
Theorem find_docs_by_name_dotted self name package :
  has_char "." name = true →
  find_docs_by_name self name package = Ok None ∨
  ∃ e, find_docs_by_name self name package = Raise e.
Proof.
  intros Hdot. unfold find_docs_by_name.
  pose proof (find_docs_loop_scan (docs self) name package) as Hscan.
  destruct (find_docs_loop (docs self) name package) as [[doc|]|e]; [|by left|eauto].
  exfalso. inversion Hscan as [|pre unique_id doc' post Hpre Hmatch Hitems Hres|].
  destruct Hmatch as (p & n & E & -> & _).
  pose proof (split_parts "." unique_id) as Hparts. rewrite E in Hparts.
  apply Forall_cons in Hparts as [_ [Hn _]%Forall_cons]. congruence.
Qed.

Lemma find_docs_by_name_sound_witness :
  find_docs_by_name docs_mixed "overview" (Some "pkg1") = Ok (Some overview_doc) ∧
  ∃ unique_id,
    (unique_id, overview_doc) ∈ docs docs_mixed ∧
    doc_matches "overview" (Some "pkg1") unique_id.
Proof.
  split; [reflexivity|].
  apply (find_docs_by_name_sound docs_mixed "overview" (Some "pkg1") overview_doc).
  reflexivity.
Defined.

Lemma find_docs_by_name_none_witness :
  find_docs_by_name (docs_overview overview_doc) "overview" (Some "pkg2") = Ok None ∧
  Forall (λ item, two_segments item.1 ∧
                  ¬ doc_matches "overview" (Some "pkg2") item.1)
         (docs (docs_overview overview_doc)).
Proof.
  split; [reflexivity|].
  apply (find_docs_by_name_none (docs_overview overview_doc) "overview" (Some "pkg2")).
  reflexivity.
Defined.

Lemma find_docs_by_name_without_package_witness :
  find_docs_by_name docs_mixed "overview" (Some "pkg1") = Ok (Some overview_doc) ∧
  ∃ doc', find_docs_by_name docs_mixed "overview" None = Ok (Some doc').
Proof.
  split; [reflexivity|].
  apply (find_docs_by_name_without_package docs_mixed "overview" "pkg1" overview_doc).
  reflexivity.
Defined.

Lemma find_docs_by_name_key_witness :
  Forall (λ item, two_segments item.1) (docs (docs_overview overview_doc)) ∧
  find_docs_by_name (docs_overview overview_doc) "overview" (Some "pkg1")
    = Ok (dict_get (doc_key "pkg1" "overview") (docs (docs_overview overview_doc))).
Proof.
  assert (H1 : Forall (λ item, two_segments item.1)
                      (docs (docs_overview overview_doc)))
    by (by repeat constructor).
  split; [exact H1|].
  exact (find_docs_by_name_key (docs_overview overview_doc) "overview" "pkg1" H1).
Defined.

Lemma find_docs_by_name_dotted_witness :
  has_char "." "pkg1.overview" = true ∧
  (find_docs_by_name (docs_overview overview_doc) "pkg1.overview" None = Ok None ∨
   ∃ e, find_docs_by_name (docs_overview overview_doc) "pkg1.overview" None = Raise e).
Proof.
  split; [reflexivity|].
  apply (find_docs_by_name_dotted (docs_overview overview_doc) "pkg1.overview" None).
  reflexivity.
Defined.

(** ** The three lookups by name *)

(** [find_operation_by_name] and [find_macro_by_name] search the
    macros, for operations and for macros; [find_refable_by_name]
    searches the nodes, for the referable resource types.  Each does one
    search and returns its result; none raises. *)
Lemma find_by_name_methods `{Utils} self name package looked_up :
  find_operation_by_name self name package looked_up
    = (Ok (find_in_subgraph_by_name (prod_map id EMacro <$> macros self)
             name package [Operation]),
       looked_up ++ [mkLookup name package [Operation]]) ∧
  find_macro_by_name self name package looked_up
    = (Ok (find_in_subgraph_by_name (prod_map id EMacro <$> macros self)
             name package [Macro]),
       looked_up ++ [mkLookup name package [Macro]]) ∧
  find_refable_by_name self name package looked_up
    = (Ok (find_in_subgraph_by_name (prod_map id ENode <$> nodes self)
             name package refable),
       looked_up ++ [mkLookup name package refable]).
Proof. done. Qed.
